(** * Recommendation engine: scorer, aggregator, pool mixer, pipelines

    A shallow embedding of the recommendation utilities of the repository
    (the strict-filter pipeline with [calculateScore], the dual-pool
    pipeline with [mixFeeds], and the shuffling pipeline of
    [src/utils/recommendation.ts]) and the properties the specification
    states about them.

    Conventions.
    - A JavaScript string is a [string]: a sequence of code units, with
      non-ASCII text held as its UTF-8 bytes.  Substring search on
      well-formed text does not depend on that choice.
    - A JavaScript number that holds a count, a score or a number of
      seconds is an integer [Z] (or [nat] for lengths and indices); the
      engine only adds, multiplies and compares such numbers, which is
      exact as long as they stay below [2^53].  The statements about
      parsed durations carry that bound.
    - A call that may throw ends as a [completion]: the value it returns,
      or the error it throws; an [async] function whose body throws
      rejects its promise.
    - [toLowerCase] is a parameter of the developments that use it: every
      statement holds for any case folding.
    - [Math.random] is an oracle: the sequence of its draws is an argument. *)

From Stdlib Require Import ZArith QArith Qround Ascii String.
From stdpp Require Import base option list sorting gmap strings pretty.

Set Warnings "-clear-no-such-hyp".

Local Open Scope string_scope.
Local Open Scope list_scope.
Local Open Scope Z_scope.

(** ** Text *)

(** [s.includes(t)]: [t] occurs in [s] as a contiguous run of code units. *)
Fixpoint includes (s t : string) : bool :=
  String.prefix t s ||
  match s with
  | EmptyString => false
  | String _ s' => includes s' t
  end.

(** [\d] of a JavaScript regular expression: the ASCII digits only. *)
Definition is_digit (c : ascii) : bool :=
  ((48 <=? nat_of_ascii c) && (nat_of_ascii c <=? 57))%nat.

Definition digit_value (c : ascii) : Z := Z.of_nat (nat_of_ascii c) - 48.



(** [parseInt(s, 10)] on the strings it receives here: the value of the
    leading run of digits ([acc] is the value read so far), which is the
    number [parseInt] returns as long as it is below [2^53]. *)
Fixpoint parseInt_from (acc : Z) (s : string) : Z :=
  match s with
  | String c s' => if is_digit c then parseInt_from (10 * acc + digit_value c) s' else acc
  | EmptyString => acc
  end.

Definition parseInt (s : string) : Z := parseInt_from 0 s.

(** ** Duration strings *)

(** Greedy [\d+] at the head of [s]: the longest run of digits and what
    follows it. *)
Fixpoint span_digits (s : string) : string * string :=
  match s with
  | String c s' =>
      if is_digit c
      then let '(d, r) := span_digits s' in (String c d, r)
      else (EmptyString, s)
  | EmptyString => (EmptyString, EmptyString)
  end.

(** The optional group [(?:(\d+)U)?] at the head of [s], for a unit letter
    [U]: the capture (absent when the group does not take part) and the
    rest of the input. *)
Definition optional_component (unit : ascii) (s : string) : option string * string :=
  match span_digits s with
  | (String d ds, String c r) =>
      if Ascii.eqb c unit then (Some (String d ds), r) else (None, s)
  | _ => (None, s)
  end.

(** The captures of the three optional groups, tried in this order right
    after the literal [PT]. *)
Definition duration_groups (s : string) : option string * option string * option string :=
  let '(h, s1) := optional_component "H" s in
  let '(m, s2) := optional_component "M" s1 in
  let '(sec, _) := optional_component "S" s2 in
  (h, m, sec).

(** [isoDuration.match(/PT(?:(\d+)H)?(?:(\d+)M)?(?:(\d+)S)?/)]: the pattern
    is not anchored, so the match starts at the leftmost [PT]; [None] is
    JavaScript's [null]. *)
Fixpoint match_duration (s : string) : option (option string * option string * option string) :=
  match s with
  | EmptyString => None
  | String c s' =>
      match s with
      | String "P" (String "T" r) => Some (duration_groups r)
      | _ => match_duration s'
      end
  end.

(** [matches[i] || '0'] followed by [parseInt(_, 10)]. *)
Definition group_value (g : option string) : Z :=
  parseInt (default "0" g).

Definition seconds_of_match (o : option (option string * option string * option string)) : Z :=
  match o with
  | None => 0
  | Some (h, m, s) => group_value h * 3600 + group_value m * 60 + group_value s
  end.

(** [parseDurationToSeconds] of the scoring pipeline, with its guard on the
    empty string. *)
Definition parseDurationToSeconds (isoDuration : string) : Z :=
  match isoDuration with
  | EmptyString => 0
  | _ => seconds_of_match (match_duration isoDuration)
  end.

(** [parseDurationToSeconds] of [src/utils/recommendation.ts]: the same
    without the guard. *)
Definition parseDurationToSeconds_unguarded (isoDuration : string) : Z :=
  seconds_of_match (match_duration isoDuration).




(** ** Case folding *)

(** [String.prototype.toLowerCase].  The engine folds both sides of every
    case-insensitive comparison with it and uses nothing else about it. *)
Class CaseFolding := toLowerCase : string → string.

Definition ascii_lower (c : ascii) : ascii :=
  let n := nat_of_ascii c in
  if ((65 <=? n) && (n <=? 90))%nat then ascii_of_nat (n + 32) else c.

(** The folding of the ASCII letters, which leaves every other code unit as
    it is (the Japanese markers of the engine have no case). *)
Fixpoint ascii_toLowerCase (s : string) : string :=
  match s with
  | EmptyString => EmptyString
  | String c s' => String (ascii_lower c) (ascii_toLowerCase s')
  end.

(** ** Arrays of strings *)

(** [array.includes(x)] on an array of strings. *)
Definition array_includes (l : list string) (x : string) : bool :=
  existsb (String.eqb x) l.

(** [array.join(sep)]. *)
Fixpoint join (sep : string) (l : list string) : string :=
  match l with
  | [] => EmptyString
  | [x] => x
  | x :: l' => x +:+ sep +:+ join sep l'
  end.

(** ** Videos and channels *)

(** Modelled from the spec: the [Video] type of [../types], which is not
    among the sources; these are the fields the engine reads or writes. *)
Record Video := mkVideo {
  id : string;
  title : string;
  channelId : string;
  channelName : string;
  channelAvatarUrl : string;
  descriptionSnippet : option string;
  uploadedAt : string;
  isoDuration : string
}.

(** Modelled from the spec: the [Channel] type of [../types]. *)
Record Channel := mkChannel {
  ch_id : string;
  ch_name : string;
  ch_avatarUrl : string
}.

(** ** Promises *)

(** A settled promise: its value, or the reason of its rejection. *)
Inductive promise (A : Type) : Type :=
  | Fulfilled (value : A)
  | Rejected (reason : string).
Arguments Fulfilled {A} value.
Arguments Rejected {A} reason.

(** [p.then(f)], for a callback that does not throw. *)
Definition then_ {A B : Type} (p : promise A) (f : A → B) : promise B :=
  match p with
  | Fulfilled a => Fulfilled (f a)
  | Rejected e => Rejected e
  end.

(** [p.catch(f)]. *)
Definition catch_ {A : Type} (p : promise A) (f : string → A) : promise A :=
  match p with
  | Fulfilled a => Fulfilled a
  | Rejected e => Fulfilled (f e)
  end.

(** [Promise.all(ps)]: the values when every promise is fulfilled, rejected
    as soon as one is (here with the reason of the first one in the array). *)
Fixpoint promise_all {A : Type} (ps : list (promise A)) : promise (list A) :=
  match ps with
  | [] => Fulfilled []
  | Fulfilled a :: ps' => then_ (promise_all ps') (cons a)
  | Rejected e :: _ => Rejected e
  end.

(** [Promise.allSettled(ps)] is always fulfilled, with the outcome of every
    promise; the outcomes are the settled promises themselves. *)
Definition promise_allSettled {A : Type} (ps : list (promise A)) : promise (list (promise A)) :=
  Fulfilled ps.

(** [await p] followed by [k]: a rejection of [p] is thrown, which rejects
    the promise of the enclosing [async] function. *)
Definition await {A B : Type} (p : promise A) (k : A → promise B) : promise B :=
  match p with
  | Fulfilled a => k a
  | Rejected e => Rejected e
  end.

(** ** Code that may throw *)

(** How a call ends: it returns a value, or it throws. *)
Inductive completion (A : Type) : Type :=
  | Returns (value : A)
  | Throws (error : string).
Arguments Returns {A} value.
Arguments Throws {A} error.

(** A call followed by what is done with its value; an exception that is
    not caught ends the whole. *)
Definition andThen {A B : Type} (c : completion A) (k : A → completion B) : completion B :=
  match c with
  | Returns a => k a
  | Throws e => Throws e
  end.

(** The promise of an [async] function whose body ends as [c]. *)
Definition settle {A : Type} (c : completion A) : promise A :=
  match c with
  | Returns a => Fulfilled a
  | Throws e => Rejected e
  end.

(** ** The remote collaborators *)

Record VideoList (V : Type) := mkVideoList { videos : list V }.
Arguments mkVideoList {V} videos.
Arguments videos {V} _.

Record VideoDetails (V : Type) := mkVideoDetails { relatedVideos : option (list V) }.
Arguments mkVideoDetails {V} relatedVideos.
Arguments relatedVideos {V} _.

(** Modelled from the spec: the functions of [./api], which is not among the
    sources.  Each call may fail; a call is determined by its arguments
    (no pipeline issues the same request twice).  [V] is the representation
    of a video the caller works with. *)
Record Api (V : Type) := mkApi {
  searchVideos : string → option string → promise (VideoList V);
  getChannelVideos : string → promise (VideoList V);
  getVideoDetails : string → promise (VideoDetails V);
  getRecommendedVideos : promise (VideoList V)
}.
Arguments mkApi {V} _ _ _ _.
Arguments searchVideos {V} _ _ _.
Arguments getChannelVideos {V} _ _.
Arguments getVideoDetails {V} _ _.
Arguments getRecommendedVideos {V} _.

(** ** Fetched lists *)

(** The copy of a channel-feed video that carries the channel it was
    fetched for. *)
Definition annotate (sub : Channel) (v : Video) : Video :=
  {| id := id v; title := title v;
     channelId := ch_id sub; channelName := ch_name sub;
     channelAvatarUrl := ch_avatarUrl sub;
     descriptionSnippet := descriptionSnippet v;
     uploadedAt := uploadedAt v; isoDuration := isoDuration v |}.

(** The candidates gathered after [Promise.allSettled]: the arrays of the
    fulfilled requests, one after the other in the order of the requests. *)
Definition collect {A : Type} (results : list (promise (list A))) : list A :=
  concat (omap (λ res, match res with Fulfilled l => Some l | Rejected _ => None end) results).

(** ** Randomness *)

(** One result of [Math.random()]: a number of the interval [0, 1). *)
Record unit_draw := mkDraw {
  draw_value : Q;
  draw_range : (0 <= draw_value)%Q ∧ (draw_value < 1)%Q
}.

(** A computation that calls [Math.random]: it consumes draws from the
    sequence of the draws still to come. *)
Definition Rand (A : Type) : Type := (nat → unit_draw) → A * (nat → unit_draw).

#[export] Instance rand_ret : MRet Rand := λ A a g, (a, g).

#[export] Instance rand_bind : MBind Rand :=
  λ A B k m g, let '(a, g') := m g in k a g'.

(** [Math.random()]. *)
Definition random : Rand unit_draw := λ g, (g 0%nat, λ n, g (S n)).

(** [Math.floor(x * bound)], computed on the exact product. *)
Definition floor_scaled (x : unit_draw) (bound : nat) : nat :=
  Z.to_nat (Qfloor (draw_value x * inject_Z (Z.of_nat bound))).

(** [Math.floor(Math.random() * bound)]. *)
Definition randomBelow (bound : nat) : Rand nat :=
  x ← random ; mret (floor_scaled x bound).

(** [Math.random() > t] for a threshold [t]. *)
Definition randomAbove (t : Q) : Rand bool :=
  x ← random ; mret (if Qlt_le_dec t (draw_value x) then true else false).

(** [[a[i], a[j]] = [a[j], a[i]]] for indices of the array. *)
Definition swap {A : Type} (i j : nat) (a : list A) : list A :=
  match a !! i, a !! j with
  | Some x, Some y => <[j:=x]> (<[i:=y]> a)
  | _, _ => a
  end.

(** The loop of [shuffleArray], from index [i] down to 1. *)
Fixpoint shuffle_loop {A : Type} (i : nat) (newArray : list A) : Rand (list A) :=
  match i with
  | O => mret newArray
  | S i' =>
      j ← randomBelow (i + 1) ;
      shuffle_loop i' (swap i j newArray)
  end.

(** [shuffleArray]: the Fisher-Yates shuffle of a copy of the array (the
    same function in the three source files). *)
Definition shuffleArray {A : Type} (array : list A) : Rand (list A) :=
  shuffle_loop (length array - 1) array.

(** [array.filter(f)] for a callback that may call [Math.random]: the
    elements are visited in order. *)
Fixpoint rand_filter {A : Type} (f : A → Rand bool) (l : list A) : Rand (list A) :=
  match l with
  | [] => mret []
  | x :: l' =>
      keep ← f x ;
      rest ← rand_filter f l' ;
      mret (if keep : bool then x :: rest else rest)
  end.

(** ** Deduplication by identity *)

(** The loop shared by the aggregator and the mixer: an element is kept,
    and its identity recorded, when its identity has not been seen. *)
Definition keep_unseen {A : Type} (key : A → string)
    (st : gset string * list A) (v : A) : gset string * list A :=
  if decide (key v ∈ st.1) then st else ({[key v]} ∪ st.1, st.2 ++ [v]).

(** ** The strict-filter pipeline (scorer, aggregator, ranking) *)

Module StrictFilter.

Record RecommendationSource := mkSource {
  searchHistory : list string;
  watchHistory : list Video;
  subscribedChannels : list Channel;
  preferredGenres : list string;
  preferredChannels : list string;
  preferredDurations : option (list string);
  preferredFreshness : option string;
  discoveryMode : option string;
  ngKeywords : option (list string);
  prefDepth : option string;
  prefVocal : option string;
  prefEra : option string;
  prefRegion : option string;
  prefLive : option string;
  prefInfoEnt : option string;
  prefPacing : option string;
  prefVisual : option string;
  prefCommunity : option string;
  page : nat
}.

(** [ScoredVideo]: the video with its score and its trace of reasons. *)
Record ScoredVideo := mkScored {
  video_of : Video;
  score : Z;
  debugReason : list string
}.

(** The table [tagKeywords] of [calculateScore]: the keys and the arrays
    written in the object literal. *)
Definition tagKeywords : list (string * list string) :=
  [ ("casual", ["short"; "funny"; "meme"; "切り抜き"; "まとめ"; "爆笑"]);
    ("deep", ["documentary"; "history"; "analysis"; "解説"; "考察"; "講座"; "徹底"; "完全"]);
    ("instrumental", ["instrumental"; "no talking"; "off vocal"; "bgm"; "asmr"; "作業用"]);
    ("vocal", ["cover"; "talk"; "radio"; "雑談"; "歌ってみた"; "karaoke"]);
    ("live", ["live"; "stream"; "archive"; "配信"; "生放送"]);
    ("solo", ["solo"; "playing"; "play"; "ぼっち"; "一人"]);
    ("collab", ["collab"; "with"; "feat"; "コラボ"; "ゲスト"]);
    ("entertainment", ["fun"; "variety"; "エンタメ"; "ドッキリ"; "企画"]);
    ("education", ["study"; "learn"; "lesson"; "講座"; "勉強"; "ニュース"]);
    ("avatar", ["vtuber"; "anime"; "3d"; "2d"; "live2d"]);
    ("real", ["vlog"; "face"; "real"; "実写"; "顔出し"]) ].

(** The own properties of the table. *)
Fixpoint lookup_tag (table : list (string * list string)) (key : string) : option (list string) :=
  match table with
  | [] => None
  | (k, ws) :: table' => if String.eqb k key then Some ws else lookup_tag table' key
  end.

(** The names that every object literal inherits from [Object.prototype];
    the value behind each of them is a function or an object, and none
    of these values has a method [some]. *)
Definition objectPrototypeKeys : list string :=
  ["constructor"; "__defineGetter__"; "__defineSetter__"; "hasOwnProperty";
   "__lookupGetter__"; "__lookupSetter__"; "isPrototypeOf"; "propertyIsEnumerable";
   "toString"; "valueOf"; "__proto__"; "toLocaleString"].

(** What [tagKeywords[key]] evaluates to: an array of the table, a value
    inherited from the prototype, or [undefined]. *)
Inductive property :=
  | KeywordArray (ws : list string)
  | InheritedValue
  | Undefined.

(** [tagKeywords[key]]: the own properties first, then the prototype. *)
Definition lookup_property (key : string) : property :=
  match lookup_tag tagKeywords key with
  | Some ws => KeywordArray ws
  | None => if array_includes objectPrototypeKeys key then InheritedValue else Undefined
  end.

(** The error of a call of [some] on a value that has no such method. *)
Definition notAFunction : string := "TypeError: tagKeywords[prefVal].some is not a function".

(** The markers of a recent upload that the freshness rule looks for. *)
Definition freshMarkers : list string := ["分前"; "時間前"; "日前"; "hours ago"].

Section Scorer.
Context `{CaseFolding}.

Definition lowerChannel (video : Video) : string := toLowerCase (channelName video).

(** [fullText]: the folded title, description and channel name, with a
    space between them. *)
Definition fullText (video : Video) : string :=
  toLowerCase (title video) +:+ " " +:+
  toLowerCase (default "" (descriptionSnippet video)) +:+ " " +:+
  lowerChannel video.

(** Rule 1: the first NG keyword, in the order of the list, that occurs
    in [fullText]. *)
Definition ngMatch (video : Video) (source : RecommendationSource) : option string :=
  match ngKeywords source with
  | Some ngs => List.find (λ ng, includes (fullText video) (toLowerCase ng)) ngs
  | None => None
  end.

(** Rule 2: the three tests that set [durationMatch]. *)
Definition durationMatch (preferred : list string) (sec : Z) : bool :=
  (array_includes preferred "short" && (0 <? sec) && (sec <? 240)) ||
  (array_includes preferred "medium" && (240 <=? sec) && (sec <=? 1200)) ||
  (array_includes preferred "long" && (1200 <? sec)).

Definition scoreDuration (video : Video) (source : RecommendationSource)
    (st : Z * list string) : Z * list string :=
  match preferredDurations source with
  | Some (d :: ds) =>
      let sec := parseDurationToSeconds (isoDuration video) in
      if durationMatch (d :: ds) sec
      then (st.1 + 200, st.2 ++ ["Duration Match (Priority)"])
      else if 0 <? sec
           then (st.1 - 500, st.2 ++ ["Duration Mismatch (Penalty)"])
           else st
  | _ => st
  end.

(** Rule 3. *)
Definition scorePreferredChannel (video : Video) (source : RecommendationSource)
    (st : Z * list string) : Z * list string :=
  if existsb (λ c, includes (lowerChannel video) (toLowerCase c)) (preferredChannels source)
  then (st.1 + 50, st.2 ++ ["Preferred Channel"])
  else st.

(** Rule 4. *)
Definition scoreSubscribed (video : Video) (source : RecommendationSource)
    (st : Z * list string) : Z * list string :=
  if existsb (λ c, String.eqb (ch_id c) (channelId video) ||
                   String.eqb (toLowerCase (ch_name c)) (lowerChannel video))
             (subscribedChannels source)
  then (st.1 + 30, st.2 ++ ["Subscribed Channel"])
  else st.

(** Rule 5: one step of the [forEach] over the preferred genres. *)
Definition scoreGenre (video : Video) (st : Z * list string) (genre : string) : Z * list string :=
  if includes (fullText video) (toLowerCase genre)
  then (st.1 + 40, st.2 ++ ["Genre Match: " +:+ genre])
  else st.

Definition scoreGenres (video : Video) (source : RecommendationSource)
    (st : Z * list string) : Z * list string :=
  foldl (scoreGenre video) st (preferredGenres source).

(** Rule 6: [checkContext(prefVal, _)].  An absent or empty value, the
    value ['any'] and a value for which the lookup gives [undefined] do
    nothing; a value that names an inherited property passes the three
    tests of the condition, and the call of [some] on it throws. *)
Definition checkContext (video : Video) (prefVal : option string)
    (st : Z * list string) : completion (Z * list string) :=
  match prefVal with
  | Some (String c v) =>
      let p := String c v in
      if String.eqb p "any" then Returns st
      else match lookup_property p with
           | KeywordArray ws =>
               if existsb (λ k, includes (fullText video) k) ws
               then Returns (st.1 + 30, st.2 ++ ["Context: " +:+ p])
               else Returns st
           | InheritedValue => Throws notAFunction
           | Undefined => Returns st
           end
  | _ => Returns st
  end.

(** The six calls of [checkContext], in the order of the code. *)
Definition scoreContext (video : Video) (source : RecommendationSource)
    (st : Z * list string) : completion (Z * list string) :=
  andThen (checkContext video (prefDepth source) st) (λ st,
  andThen (checkContext video (prefVocal source) st) (λ st,
  andThen (checkContext video (prefLive source) st) (λ st,
  andThen (checkContext video (prefCommunity source) st) (λ st,
  andThen (checkContext video (prefInfoEnt source) st) (λ st,
  checkContext video (prefVisual source) st))))).

(** Rule 7. *)
Definition isFresh (video : Video) : bool :=
  existsb (λ m, includes (uploadedAt video) m) freshMarkers.

Definition scoreFreshness (video : Video) (source : RecommendationSource)
    (st : Z * list string) : Z * list string :=
  match preferredFreshness source with
  | Some f =>
      if String.eqb f "new" && isFresh video
      then (st.1 + 20, st.2 ++ ["Fresh"])
      else st
  | None => st
  end.

(** Rules 2 to 6, from the initial score 0 and the empty trace. *)
Definition scoreBeforeFreshness (video : Video) (source : RecommendationSource)
    : completion (Z * list string) :=
  scoreContext video source
    (scoreGenres video source
      (scoreSubscribed video source
        (scorePreferredChannel video source
          (scoreDuration video source (0, []))))).

(** [calculateScore]: the score and the reasons, unless rule 6 throws. *)
Definition calculateScore (video : Video) (source : RecommendationSource)
    : completion (Z * list string) :=
  match ngMatch video source with
  | Some ng => Returns (-10000, ["NG Keyword: " +:+ ng])
  | None =>
      andThen (scoreBeforeFreshness video source) (λ st,
      Returns (scoreFreshness video source st))
  end.
End Scorer.

(** The search requests, each with its own [catch]. *)
Definition searchRequests (api : Api Video) (uniqueQueries : list string)
    : list (promise (list Video)) :=
  map (λ q, catch_ (then_ (searchVideos api q None) videos) (λ _, [])) uniqueQueries.

(** The direct channel feeds, each with its own [catch]. *)
Definition channelRequests (api : Api Video) (subsToFetch : list Channel)
    : list (promise (list Video)) :=
  map (λ sub, catch_ (then_ (getChannelVideos api (ch_id sub))
                            (λ res, map (annotate sub) (videos res)))
                     (λ _, []))
      subsToFetch.

(** The channels whose feed is fetched: the first two of a shuffle, unless
    the mode is ['discovery'] or there is no subscription. *)
Definition chooseSubs (sources : RecommendationSource) : Rand (list Channel) :=
  if negb (String.eqb (default "balanced" (discoveryMode sources)) "discovery")
     && (0 <? length (subscribedChannels sources))%nat
  then shuffled ← shuffleArray (subscribedChannels sources); mret (take 2 shuffled)
  else mret [].

(** The deduplication loop: [uniqueCandidates]. *)
Definition deduplicate (rawCandidates : list Video) : list Video :=
  (foldl (keep_unseen id) (∅, []) rawCandidates).2.

(** Where [x] goes in a list sorted by descending score: before the first
    element whose score is not greater. *)
Fixpoint insertByScore (x : ScoredVideo) (l : list ScoredVideo) : list ScoredVideo :=
  match l with
  | [] => [x]
  | y :: l' => if score x <? score y then y :: insertByScore x l' else x :: y :: l'
  end.

(** [array.sort((a, b) => b.score - a.score)]: the stable sort by
    descending score. *)
Definition sortByScore (l : list ScoredVideo) : list ScoredVideo :=
  foldr insertByScore [] l.

Section Pipeline.
Context `{CaseFolding}.

(** The callback of the scoring [map]. *)
Definition scoreVideo (sources : RecommendationSource) (video : Video) : completion ScoredVideo :=
  andThen (calculateScore video sources) (λ '(s, reasons),
  Returns {| video_of := video; score := s; debugReason := reasons |}).

(** [uniqueCandidates.map(video => ...)]: the callback is called on the
    candidates in order, and an exception of a call ends the [map]. *)
Fixpoint scoreAll (sources : RecommendationSource) (uniqueCandidates : list Video)
    : completion (list ScoredVideo) :=
  match uniqueCandidates with
  | [] => Returns []
  | video :: rest =>
      andThen (scoreVideo sources video) (λ scored,
      andThen (scoreAll sources rest) (λ scoredRest,
      Returns (scored :: scoredRest)))
  end.

(** Threshold, sort and cap of the scored videos. *)
Definition selectTop (scoredVideos : list ScoredVideo) : list ScoredVideo :=
  let validVideos := filter (λ v, -100 < score v) scoredVideos in
  take 50 (sortByScore validVideos).

(** Scoring, threshold, sort and cap. *)
Definition rank (sources : RecommendationSource) (uniqueCandidates : list Video)
    : completion (list ScoredVideo) :=
  andThen (scoreAll sources uniqueCandidates) (λ scoredVideos,
  Returns (selectTop scoredVideos)).

(** [getDeeplyAnalyzedRecommendations], from the planned queries on:
    [uniqueQueries] is the outcome of query generation (at most six
    strings), and the draws are those that follow it.  Scoring is under
    no [try] and no [catch]: when it throws, the promise is rejected. *)
Definition getDeeplyAnalyzedRecommendations (api : Api Video)
    (sources : RecommendationSource) (uniqueQueries : list string)
    : Rand (promise (list ScoredVideo)) :=
  subsToFetch ← chooseSubs sources;
  let fetchPromises := searchRequests api uniqueQueries ++ channelRequests api subsToFetch in
  mret (await (promise_allSettled fetchPromises) (λ results,
    let rawCandidates := collect results in
    let uniqueCandidates := deduplicate rawCandidates in
    settle (rank sources uniqueCandidates))).
End Pipeline.

End StrictFilter.

(** ** The dual-pool pipeline (pool mixer, weighted pools, fallback) *)

Module DualPool.

(** A video as the mixer sees it: an object, with the identity that [===]
    and [Array.prototype.includes] compare, and its fields. *)
Record VideoObject := mkObject {
  ref : nat;
  contents : Video
}.

Definition vid (v : VideoObject) : string := id (contents v).

(** [list.includes(v)] on an array of objects: some element is the very
    object [v]. *)
Definition includesObject (l : list VideoObject) (v : VideoObject) : bool :=
  existsb (λ a, Nat.eqb (ref a) (ref v)) l.

Record RecommendationSource := mkSource {
  searchHistory : list string;
  watchHistory : list VideoObject;
  subscribedChannels : list Channel;
  preferredGenres : list string;
  preferredChannels : list string;
  ngKeywords : list string;
  ngChannels : list string;
  page : nat
}.

(** [chunkArray]; the loop runs at most once per element when [size] is
    positive, which bounds it by the length of the array. *)
Fixpoint chunk_loop {A : Type} (steps : nat) (array : list A) (size : nat) : list (list A) :=
  match steps, array with
  | S steps', _ :: _ => take size array :: chunk_loop steps' (drop size array) size
  | _, _ => []
  end.

Definition chunkArray {A : Type} (array : list A) (size : nat) : list (list A) :=
  chunk_loop (length array) array size.

(** The test [(currentCountA / currentTotal) < discoveryRatio] of the
    mixer, as a function of the two counts.  The number [discoveryRatio]
    enters [mixFeeds] through this test only. *)
Definition ratio_test : Type := nat → nat → bool.

(** The test for a ratio, with the quotient computed exactly. *)
Definition belowRatio (discoveryRatio : Q) : ratio_test :=
  λ currentCountA currentTotal,
    if Qlt_le_dec (inject_Z (Z.of_nat currentCountA) / inject_Z (Z.of_nat currentTotal))
                  discoveryRatio
    then true else false.

(** The variables of the loop of [mixFeeds]. *)
Record MixState := mkMix {
  idxA : nat;
  idxB : nat;
  result : list VideoObject;
  seenIds : gset string
}.

(** One iteration of the loop. *)
Definition mixStep (discoveryList comfortList : list VideoObject) (below : ratio_test)
    (st : MixState) : MixState :=
  let currentCountA := length (List.filter (includesObject discoveryList) (result st)) in
  let currentTotal := (length (result st) + 1)%nat in
  let pickFromA :=
    if (idxA st <? length discoveryList)%nat && (idxB st <? length comfortList)%nat
    then below currentCountA currentTotal
    else (idxA st <? length discoveryList)%nat in
  let '(candidate, a, b) :=
    if pickFromA && (idxA st <? length discoveryList)%nat
    then (discoveryList !! idxA st, S (idxA st), idxB st)
    else if (idxB st <? length comfortList)%nat
         then (comfortList !! idxB st, idxA st, S (idxB st))
         else (None, idxA st, idxB st) in
  match candidate with
  | Some c =>
      let '(seen, res) := keep_unseen vid (seenIds st, result st) c in
      {| idxA := a; idxB := b; result := res; seenIds := seen |}
  | None => {| idxA := a; idxB := b; result := result st; seenIds := seenIds st |}
  end.

(** [mixFeeds]: the loop runs once per input element. *)
Definition mixLoop (discoveryList comfortList : list VideoObject) (below : ratio_test)
    (iterations : nat) : MixState :=
  Nat.iter iterations (mixStep discoveryList comfortList below)
    {| idxA := 0; idxB := 0; result := []; seenIds := ∅ |}.

Definition mixFeeds (discoveryList comfortList : list VideoObject) (below : ratio_test)
    : list VideoObject :=
  let totalLength := (length discoveryList + length comfortList)%nat in
  result (mixLoop discoveryList comfortList below totalLength).

(** [new Map(entries)]: a key keeps the place of its first entry and the
    value of its last one. *)
Fixpoint map_set {A : Type} (k : string) (v : A) (m : list (string * A)) : list (string * A) :=
  match m with
  | [] => [(k, v)]
  | (k', v') :: m' => if String.eqb k' k then (k, v) :: m' else (k', v') :: map_set k v m'
  end.

(** [Array.from(new Map(raw.map(v => [v.id, v])).values())]. *)
Definition uniqueById (raw : list VideoObject) : list VideoObject :=
  map snd (foldl (λ m v, map_set (vid v) v m) [] raw).

(** [Array.from(new Set(array))]: the first occurrences, in order. *)
Definition uniqueStrings (array : list string) : list string :=
  (foldl (keep_unseen (λ s, s)) (∅, []) array).2.

(** The options passed to [rankVideos]. *)
Record RankOptions := mkRankOptions {
  opt_ngKeywords : list string;
  opt_ngChannels : list string;
  opt_watchHistory : list VideoObject;
  opt_mode : string
}.

Section Xrai.
(** The module [./xrai] is not among the sources: the profile builder,
    the keywords of a profile in descending order of weight, and the
    ranking pass are taken as they come. *)
Variable UserProfile : Type.
Variable buildUserProfile : list VideoObject → list string → list Channel → UserProfile.
Variable weightedKeywords : UserProfile → list string.
Variable rankVideos : list VideoObject → UserProfile → RankOptions → list VideoObject.

Definition topKeywordsOf (sources : RecommendationSource) (userProfile : UserProfile) : list string :=
  let priorityKeywords := uniqueStrings (preferredGenres sources ++ weightedKeywords userProfile) in
  take 12 priorityKeywords.

(** Pool A before the fallback: the keyword searches, or the trending
    search of the first page when there is no keyword. *)
Definition discoveryRequests (api : Api VideoObject) (sources : RecommendationSource)
    (topKeywords : list string) : list (promise (list VideoObject)) :=
  (if (0 <? length topKeywords)%nat
   then map (λ chunk, catch_ (then_ (searchVideos api (join " OR " chunk)
                                                  (Some (pretty (page sources))))
                                    videos)
                             (λ _, []))
            (chunkArray topKeywords 3)
   else []) ++
  (if (length topKeywords =? 0)%nat && (page sources =? 1)%nat
   then [catch_ (then_ (searchVideos api "trending Japan" (Some "1")) videos) (λ _, [])]
   else []).

(** Pool B: the videos related to a recent one, then two channel feeds. *)
Definition comfortRequests (api : Api VideoObject) (sources : RecommendationSource)
    : Rand (list (promise (list VideoObject))) :=
  related ←
    (if (0 <? length (watchHistory sources))%nat
     then k ← randomBelow (length (watchHistory sources) `min` 5);
          mret (match watchHistory sources !! k with
                | Some recentVideo =>
                    [catch_ (then_ (getVideoDetails api (vid recentVideo))
                                   (λ details, default [] (relatedVideos details)))
                            (λ _, [])]
                | None => []
                end)
     else mret []);
  feeds ←
    (if (0 <? length (subscribedChannels sources))%nat
     then shuffled ← shuffleArray (subscribedChannels sources);
          mret (map (λ sub, catch_ (then_ (getChannelVideos api (ch_id sub))
                                          (λ res, take 8 (videos res)))
                                   (λ _, []))
                    (take 2 shuffled))
     else mret []);
  mret (related ++ feeds).

(** The request pushed for a user without any signal; it is pushed as it
    is, without a [catch]. *)
Definition fallbackRequests (api : Api VideoObject) (sources : RecommendationSource)
    (topKeywords : list string) (discoveryPromises : list (promise (list VideoObject)))
    : list (promise (list VideoObject)) :=
  if (length (watchHistory sources) =? 0)%nat
     && (length (subscribedChannels sources) =? 0)%nat
     && (length topKeywords =? 0)%nat
     && (length discoveryPromises =? 0)%nat
  then [then_ (getRecommendedVideos api) videos]
  else [].

(** [getXraiRecommendations]. *)
Definition getXraiRecommendations (api : Api VideoObject) (sources : RecommendationSource)
    : Rand (promise (list VideoObject)) :=
  let userProfile :=
    buildUserProfile (watchHistory sources) (searchHistory sources) (subscribedChannels sources) in
  let topKeywords := topKeywordsOf sources userProfile in
  let discoveryPromises := discoveryRequests api sources topKeywords in
  comfortPromises ← comfortRequests api sources;
  let discoveryPromises :=
    discoveryPromises ++ fallbackRequests api sources topKeywords discoveryPromises in
  mret (
    await (promise_all [promise_all discoveryPromises; promise_all comfortPromises]) (λ nested,
      let rawDiscovery := concat (default [] (nested !! 0%nat)) in
      let rawComfort := concat (default [] (nested !! 1%nat)) in
      let uniqueDiscovery := uniqueById rawDiscovery in
      let uniqueComfort := uniqueById rawComfort in
      let discoveryIds : gset string := list_to_set (map vid uniqueDiscovery) in
      let filteredComfort := filter (λ v, vid v ∉ discoveryIds) uniqueComfort in
      let rankedDiscovery :=
        rankVideos uniqueDiscovery userProfile
          {| opt_ngKeywords := ngKeywords sources; opt_ngChannels := ngChannels sources;
             opt_watchHistory := watchHistory sources; opt_mode := "discovery" |} in
      let rankedComfort :=
        rankVideos filteredComfort userProfile
          {| opt_ngKeywords := ngKeywords sources; opt_ngChannels := ngChannels sources;
             opt_watchHistory := watchHistory sources; opt_mode := "comfort" |} in
      let finalFeed := mixFeeds rankedDiscovery rankedComfort (belowRatio (65 # 100)) in
      Fulfilled (take 150 finalFeed))).
End Xrai.

(** [getLegacyRecommendations]: the [catch] block logs the error and
    returns the empty list. *)
Definition getLegacyRecommendations (api : Api VideoObject) : Rand (promise (list VideoObject)) :=
  match getRecommendedVideos api with
  | Fulfilled res => shuffled ← shuffleArray (videos res); mret (Fulfilled shuffled)
  | Rejected _ => mret (Fulfilled [])
  end.

End DualPool.

(** ** The shuffling pipeline of [src/utils/recommendation.ts] *)

Module Shuffling.

Record RecommendationSource := mkSource {
  searchHistory : list string;
  watchHistory : list Video;
  subscribedChannels : list Channel;
  preferredGenres : list string;
  preferredChannels : list string;
  preferredDurations : option (list string);
  preferredFreshness : option string;
  discoveryMode : option string;
  ngKeywords : option (list string);
  page : nat
}.

(** [targetSubCount]. *)
Definition targetSubCount (sources : RecommendationSource) : nat :=
  let discoveryMode := default "balanced" (discoveryMode sources) in
  if String.eqb discoveryMode "subscribed" then length (subscribedChannels sources) `min` 10
  else if String.eqb discoveryMode "discovery" then 1
  else length (subscribedChannels sources) `min` 5.

(** [subPromises]: the feeds of the first [targetSubCount] shuffled
    channels, ten videos each, every request with its own [catch]. *)
Definition subRequests (api : Api Video) (sources : RecommendationSource)
    : Rand (list (promise (list Video))) :=
  shuffledSubs ← shuffleArray (subscribedChannels sources);
  mret (map (λ subChannel,
               catch_ (then_ (getChannelVideos api (ch_id subChannel))
                             (λ res, map (annotate subChannel) (take 10 (videos res))))
                      (λ _, []))
            (take (targetSubCount sources) shuffledSubs)).

(** [searchPromises]. *)
Definition searchRequests (api : Api Video) (sources : RecommendationSource)
    (uniqueQueries : list string) : list (promise (list Video)) :=
  let videosPerQuery :=
    if String.eqb (default "balanced" (discoveryMode sources)) "discovery" then 30%nat else 20%nat in
  map (λ q, catch_ (then_ (searchVideos api q None) (λ res, take videosPerQuery (videos res)))
                   (λ _, []))
      uniqueQueries.

(** The duration test of the filtering loop: [isMatch]. *)
Definition durationAccepted (preferredDurations : list string) (video : Video) : bool :=
  let durationSec := parseDurationToSeconds_unguarded (isoDuration video) in
  (array_includes preferredDurations "short" && (durationSec <? 240)) ||
  (array_includes preferredDurations "medium" && (240 <=? durationSec) && (durationSec <=? 1200)) ||
  (array_includes preferredDurations "long" && (1200 <? durationSec)) ||
  (durationSec =? 0).

Section Filtering.
Context `{CaseFolding}.

(** The NG test of the filtering loop: [isNg]. *)
Definition isNg (ngKeywords : list string) (video : Video) : bool :=
  let targetText :=
    toLowerCase (title video +:+ " " +:+ channelName video +:+ " " +:+
                 default "" (descriptionSnippet video)) in
  existsb (λ ng, includes targetText (toLowerCase ng)) ngKeywords.

(** Whether one of the two filters rejects the video. *)
Definition rejected (sources : RecommendationSource) (video : Video) : bool :=
  let ngKeywords := default [] (ngKeywords sources) in
  let preferredDurations := default [] (preferredDurations sources) in
  if (0 <? length ngKeywords)%nat && isNg ngKeywords video then true
  else (0 <? length preferredDurations)%nat && negb (durationAccepted preferredDurations video).

(** One iteration of the loop over [combinedVideos]: a video whose id
    has been seen is skipped; otherwise its id is recorded, and then the
    filters decide whether it is pushed. *)
Definition filterStep (sources : RecommendationSource)
    (st : gset string * list Video) (video : Video) : gset string * list Video :=
  if decide (id video ∈ st.1) then st
  else
    let seenIds := {[id video]} ∪ st.1 in
    if rejected sources video then (seenIds, st.2) else (seenIds, st.2 ++ [video]).

Definition filterCandidates (sources : RecommendationSource) (combinedVideos : list Video)
    : list Video :=
  (foldl (filterStep sources) (∅, []) combinedVideos).2.

(** The thinning of short videos, applied when more than twenty videos
    are left. *)
Definition thinShorts (sources : RecommendationSource) (filteredVideos : list Video)
    : Rand (list Video) :=
  if (20 <? length filteredVideos)%nat
  then rand_filter
         (λ v,
            let seconds := parseDurationToSeconds_unguarded (isoDuration v) in
            if array_includes (default [] (preferredDurations sources)) "short" then mret true
            else if 60 <? seconds then mret true
            else randomAbove (7 # 10))
         filteredVideos
  else mret filteredVideos.

(** What follows the loop: the thinning, the shuffle and the cap. *)
Definition finish (sources : RecommendationSource) (filteredVideos : list Video)
    : Rand (list Video) :=
  thinned ← thinShorts sources filteredVideos;
  shuffled ← shuffleArray thinned;
  mret (take 100 shuffled).

(** [getDeeplyAnalyzedRecommendations], from the generated queries on:
    [uniqueQueries] is the outcome of query generation, and the draws
    are those that follow it. *)
Definition getDeeplyAnalyzedRecommendations (api : Api Video)
    (sources : RecommendationSource) (uniqueQueries : list string)
    : Rand (promise (list Video)) :=
  subPromises ← subRequests api sources;
  let searchPromises := searchRequests api sources uniqueQueries in
  match promise_allSettled (searchPromises ++ subPromises) with
  | Fulfilled results =>
      let combinedVideos := collect results in
      out ← finish sources (filterCandidates sources combinedVideos);
      mret (Fulfilled out)
  | Rejected e => mret (Rejected e)
  end.
End Filtering.

End Shuffling.

(** ** Vocabulary of the statements *)










(** The bucket of a duration in seconds: short is strictly between 0 and
    240, medium is 240 to 1200 inclusive, long is more than 1200; a
    duration of 0 seconds is in no bucket. *)
Definition bucketOf (sec : Z) : option string :=
  if (0 <? sec) && (sec <? 240) then Some "short"
  else if (240 <=? sec) && (sec <=? 1200) then Some "medium"
  else if 1200 <? sec then Some "long"
  else None.

Definition inPreferredBucket (preferred : list string) (sec : Z) : Prop :=
  ∃ b, bucketOf sec = Some b ∧ b ∈ preferred.

(** A source with another set of preferred durations, or another
    freshness preference, and everything else as it is. *)
Definition withDurations (d : option (list string)) (s : StrictFilter.RecommendationSource)
    : StrictFilter.RecommendationSource :=
  StrictFilter.mkSource
    (StrictFilter.searchHistory s) (StrictFilter.watchHistory s)
    (StrictFilter.subscribedChannels s) (StrictFilter.preferredGenres s)
    (StrictFilter.preferredChannels s) d (StrictFilter.preferredFreshness s)
    (StrictFilter.discoveryMode s) (StrictFilter.ngKeywords s)
    (StrictFilter.prefDepth s) (StrictFilter.prefVocal s) (StrictFilter.prefEra s)
    (StrictFilter.prefRegion s) (StrictFilter.prefLive s) (StrictFilter.prefInfoEnt s)
    (StrictFilter.prefPacing s) (StrictFilter.prefVisual s) (StrictFilter.prefCommunity s)
    (StrictFilter.page s).

Definition withFreshness (f : option string) (s : StrictFilter.RecommendationSource)
    : StrictFilter.RecommendationSource :=
  StrictFilter.mkSource
    (StrictFilter.searchHistory s) (StrictFilter.watchHistory s)
    (StrictFilter.subscribedChannels s) (StrictFilter.preferredGenres s)
    (StrictFilter.preferredChannels s) (StrictFilter.preferredDurations s) f
    (StrictFilter.discoveryMode s) (StrictFilter.ngKeywords s)
    (StrictFilter.prefDepth s) (StrictFilter.prefVocal s) (StrictFilter.prefEra s)
    (StrictFilter.prefRegion s) (StrictFilter.prefLive s) (StrictFilter.prefInfoEnt s)
    (StrictFilter.prefPacing s) (StrictFilter.prefVisual s) (StrictFilter.prefCommunity s)
    (StrictFilter.page s).

(** A contribution of earlier rules put in front of a score and its trace. *)
Definition shift (d st : Z * list string) : Z * list string :=
  (d.1 + st.1, d.2 ++ st.2).

(** The same in front of the state that a call returns; a call that
    throws returns no state. *)
Definition shifted (d : Z * list string) (c : completion (Z * list string))
    : completion (Z * list string) :=
  match c with
  | Returns st => Returns (shift d st)
  | Throws e => Throws e
  end.

(** Rules 3 to 7 of the scorer applied to a state. *)
Definition laterRules `{CaseFolding} (video : Video) (source : StrictFilter.RecommendationSource)
    (st : Z * list string) : completion (Z * list string) :=
  andThen
    (StrictFilter.scoreContext video source
      (StrictFilter.scoreGenres video source
        (StrictFilter.scoreSubscribed video source
          (StrictFilter.scorePreferredChannel video source st))))
    (λ st', Returns (StrictFilter.scoreFreshness video source st')).

(** The six context preferences that the scorer checks, in its order. *)
Definition contextPreferences (source : StrictFilter.RecommendationSource) : list (option string) :=
  [StrictFilter.prefDepth source; StrictFilter.prefVocal source; StrictFilter.prefLive source;
   StrictFilter.prefCommunity source; StrictFilter.prefInfoEnt source;
   StrictFilter.prefVisual source].

(** No context preference of the source is the name of a property that
    object literals inherit. *)
Definition contextSafe (source : StrictFilter.RecommendationSource) : Prop :=
  ∀ p, Some p ∈ contextPreferences source → p ∉ StrictFilter.objectPrototypeKeys.

(** The elements of [l] that are the first of their identity, given the
    identities [seen] before [l]. *)
Fixpoint firstOccurrences {A : Type} (key : A → string) (seen : gset string) (l : list A) : list A :=
  match l with
  | [] => []
  | v :: l' =>
      if decide (key v ∈ seen) then firstOccurrences key seen l'
      else v :: firstOccurrences key ({[key v]} ∪ seen) l'
  end.

(** [interleaving xs ys zs]: [zs] holds the elements of [xs] and of [ys],
    each once, those of [xs] in the order of [xs] and those of [ys] in the
    order of [ys]. *)
Inductive interleaving {A : Type} : list A → list A → list A → Prop :=
  | interleaving_nil : interleaving [] [] []
  | interleaving_left x xs ys zs :
      interleaving xs ys zs → interleaving (x :: xs) ys (x :: zs)
  | interleaving_right y xs ys zs :
      interleaving xs ys zs → interleaving xs (y :: ys) (y :: zs).

(** A list of scored videos in descending order of score. *)
Definition descending (l : list StrictFilter.ScoredVideo) : Prop :=
  StronglySorted (λ a b, StrictFilter.score b <= StrictFilter.score a) l.

(** The list [combinedVideos] of a call of the shuffling pipeline. *)
Definition combinedVideosOf (api : Api Video) (sources : Shuffling.RecommendationSource)
    (uniqueQueries : list string) (g : nat → unit_draw) : list Video :=
  collect (Shuffling.searchRequests api sources uniqueQueries
           ++ (Shuffling.subRequests api sources g).1).

(** ** Concrete inputs *)

(** The draw 0. *)
Definition zeroDraw : unit_draw.
Proof. refine (mkDraw 0 _). split; [apply Qle_refl | reflexivity]. Defined.

Definition zeroDraws : nat → unit_draw := λ _, zeroDraw.

(** A user without any signal, on the second page of the feed. *)
Definition newUserSecondPage : DualPool.RecommendationSource :=
  DualPool.mkSource [] [] [] [] [] [] [] 2.

(** Remote collaborators of which the recommended feed fails and every
    other request answers with an empty list. *)
Definition feedDown : Api DualPool.VideoObject :=
  mkApi (λ _ _, Fulfilled (mkVideoList []))
        (λ _, Fulfilled (mkVideoList []))
        (λ _, Fulfilled (mkVideoDetails None))
        (Rejected "network error").

(** The case folding of the concrete inputs. *)
Definition asciiFolding : CaseFolding := ascii_toLowerCase.

Definition plainVideo (i t ch up dur : string) : Video :=
  mkVideo i t "UC0" ch "" None up dur.

(** The user of the end-to-end scenario: one preferred genre, one NG
    keyword, and nothing else. *)
Definition cookingFan : StrictFilter.RecommendationSource :=
  StrictFilter.mkSource [] [] [] ["cooking"] [] None None None (Some ["violence"])
    None None None None None None None None None 1.

Definition violentCooking : Video :=
  plainVideo "v1" "Violence in Cooking" "Kitchen" "2 days ago" "PT5M".

Definition easyCooking : Video :=
  plainVideo "v2" "Easy Cooking Recipe" "Kitchen" "3 時間前" "PT5M".

(** A user who prefers medium videos and new uploads. *)
Definition mediumAndNew : StrictFilter.RecommendationSource :=
  StrictFilter.mkSource [] [] [] [] [] (Some ["medium"]) (Some "new") None None
    None None None None None None None None None 1.

Definition fiveMinutesAgo : Video :=
  plainVideo "v3" "Morning news" "Daily" "5 minutes ago" "PT50S".

(** A user whose only preference is new uploads, and four uploads with
    the recency descriptors of one news item. *)
Definition wantsNew : StrictFilter.RecommendationSource :=
  StrictFilter.mkSource [] [] [] [] [] None (Some "new") None None
    None None None None None None None None None 1.

Definition uploaded (descriptor : string) : Video :=
  plainVideo "v4" "Morning news" "Daily" descriptor "PT4M".

(** A user whose depth preference is the word [constructor]. *)
Definition constructorFan : StrictFilter.RecommendationSource :=
  StrictFilter.mkSource [] [] [] ["cooking"] [] (Some ["medium"]) None None (Some ["violence"])
    (Some "constructor") None None None None None None None None 1.

(** Two pools with five distinct videos. *)
Definition object (r : nat) (i : string) : DualPool.VideoObject :=
  DualPool.mkObject r (plainVideo i i "Channel" "" "").

Definition poolA : list DualPool.VideoObject := [object 1 "a1"; object 2 "a2"; object 3 "a3"].
Definition poolB : list DualPool.VideoObject := [object 4 "b1"; object 5 "b2"].

(** Two pools that share the video [a2]. *)
Definition poolB_overlapping : list DualPool.VideoObject := [object 6 "a2"; object 5 "b2"].

(** Two fetched lists that share the id [v2]. *)
Definition fetchedLists : list (list Video) :=
  [[violentCooking; easyCooking]; [plainVideo "v2" "Easy Cooking (mirror)" "Other" "" "PT6M"]].

(** A user of the shuffling pipeline with one NG keyword, and two copies
    of one video: the first names the keyword in its channel, the second
    does not. *)
Definition noViolence : Shuffling.RecommendationSource :=
  Shuffling.mkSource [] [] [] [] [] None None None (Some ["violence"]) 1.

Definition firstCopy : Video := plainVideo "x1" "Street food tour" "Violence Daily" "" "PT8M".
Definition laterCopy : Video := plainVideo "x1" "Street food tour" "Food Walks" "" "PT8M".

(** ** Query generation of the strict-filter pipeline *)

Module QueryPlan.

(** [new Set<string>()] with [add], as an array in insertion order. *)
Definition setAdd (queries : list string) (q : string) : list string :=
  if array_includes queries q then queries else queries ++ [q].

(** [pref === value] for an optional preference. *)
Definition hasValue (pref : option string) (value : string) : bool :=
  match pref with
  | Some p => String.eqb p value
  | None => false
  end.

(** [getContextKeywords]. *)
Definition getContextKeywords (sources : StrictFilter.RecommendationSource) : list string :=
  (if hasValue (StrictFilter.prefDepth sources) "deep" then ["解説"; "考察"] else [])
  ++ (if hasValue (StrictFilter.prefVisual sources) "avatar" then ["Vtuber"] else [])
  ++ (if hasValue (StrictFilter.prefVisual sources) "real" then ["vlog"] else []).

(** [contextSuffix]: a space, and the first of the shuffled context
    keywords when there is one. *)
Definition contextSuffixOf (sources : StrictFilter.RecommendationSource) : Rand string :=
  shuffled ← shuffleArray (getContextKeywords sources);
  mret (" " +:+ join " " (take 1 shuffled)).

(** [freshnessSuffix]. *)
Definition freshnessSuffixOf (sources : StrictFilter.RecommendationSource) : string :=
  if String.eqb (default "balanced" (StrictFilter.preferredFreshness sources)) "new"
  then " new" else "".

(** [array.forEach(f)] for a callback that updates a variable and may
    call [Math.random]. *)
Fixpoint rand_foldl {A B : Type} (f : B → A → Rand B) (b : B) (l : list A) : Rand B :=
  match l with
  | [] => mret b
  | x :: l' => b' ← f b x; rand_foldl f b' l'
  end.

(** D: the name of one subscribed channel, unless the mode is
    ['discovery']; the index is drawn even when there is no channel. *)
Definition addFromSubscriptions (sources : StrictFilter.RecommendationSource)
    (contextSuffix : string) (queries : list string) : Rand (list string) :=
  if negb (String.eqb (default "balanced" (StrictFilter.discoveryMode sources)) "discovery")
  then
    k ← randomBelow (length (StrictFilter.subscribedChannels sources));
    mret (match StrictFilter.subscribedChannels sources !! k with
          | Some randomSub => setAdd queries (ch_name randomSub +:+ contextSuffix)
          | None => queries
          end)
  else mret queries.

(** E: the three generic queries, when nothing was generated or the mode
    is ['discovery']. *)
Definition addFallback (sources : StrictFilter.RecommendationSource)
    (contextSuffix : string) (queries : list string) : list string :=
  if (length queries =? 0)%nat
     || String.eqb (default "balanced" (StrictFilter.discoveryMode sources)) "discovery"
  then foldl setAdd queries
         ["Japan trending" +:+ contextSuffix; "Gaming" +:+ contextSuffix;
          "Music" +:+ contextSuffix]
  else queries.

Section Plan.
(** [extractKeywords] is taken as it comes: its regular expressions work
    on UTF-16 code units and Unicode white space. *)
Variable extractKeywords : string → list string.

(** C: one step of the [forEach] over the recent history. *)
Definition addFromHistory (contextSuffix : string) (queries : list string) (v : Video)
    : Rand (list string) :=
  match extractKeywords (title v) with
  | [] => mret queries
  | k0 :: rest =>
      let queries := setAdd queries (k0 +:+ contextSuffix) in
      match rest with
      | k1 :: _ =>
          above ← randomAbove (1 # 2);
          mret (if above : bool then setAdd queries (k1 +:+ contextSuffix) else queries)
      | [] => mret queries
      end
  end.

(** The set [queries] before the cap. *)
Definition queriesOf (sources : StrictFilter.RecommendationSource) : Rand (list string) :=
  contextSuffix ← contextSuffixOf sources;
  let freshnessSuffix := freshnessSuffixOf sources in
  let queries :=
    foldl (λ qs g, setAdd qs (g +:+ contextSuffix +:+ freshnessSuffix)) []
          (StrictFilter.preferredGenres sources) in
  let queries :=
    foldl (λ qs c, setAdd qs (c +:+ contextSuffix)) queries
          (StrictFilter.preferredChannels sources) in
  queries ← rand_foldl (addFromHistory contextSuffix) queries
              (take 15 (StrictFilter.watchHistory sources));
  queries ← addFromSubscriptions sources contextSuffix queries;
  mret (addFallback sources contextSuffix queries).

(** [uniqueQueries]. *)
Definition uniqueQueries (sources : StrictFilter.RecommendationSource) : Rand (list string) :=
  queries ← queriesOf sources;
  mret (take 6 queries).

(** [getDeeplyAnalyzedRecommendations] as a whole: query generation, then
    fetching, aggregation and ranking. *)
Definition getDeeplyAnalyzedRecommendations `{CaseFolding} (api : Api Video)
    (sources : StrictFilter.RecommendationSource) : Rand (promise (list StrictFilter.ScoredVideo)) :=
  queries ← uniqueQueries sources;
  StrictFilter.getDeeplyAnalyzedRecommendations api sources queries.
End Plan.

End QueryPlan.

(** ** Vocabulary of the further statements *)

(** What a search request contributes: its videos, or nothing when it
    fails. *)
Definition searchAnswer (api : Api Video) (q : string) : list Video :=
  match searchVideos api q None with
  | Fulfilled res => videos res
  | Rejected _ => []
  end.

(** What a channel feed contributes to the strict-filter pipeline. *)
Definition feedAnswer (api : Api Video) (sub : Channel) : list Video :=
  match getChannelVideos api (ch_id sub) with
  | Fulfilled res => map (annotate sub) (videos res)
  | Rejected _ => []
  end.

(** The points of the duration rule. *)
Definition durationPoints (video : Video) (source : StrictFilter.RecommendationSource) : Z :=
  match StrictFilter.preferredDurations source with
  | Some (d :: ds) =>
      let sec := parseDurationToSeconds (isoDuration video) in
      if StrictFilter.durationMatch (d :: ds) sec then 200
      else if 0 <? sec then -500 else 0
  | _ => 0
  end.

(** The number of chunks of [chunkArray]: the length divided by the size,
    rounded up. *)
Definition chunkCount (len size : nat) : nat := ((len + size - 1) / size)%nat.

(** [v] is the last element of [raw] with its id. *)
Definition lastWithId (raw : list DualPool.VideoObject) (v : DualPool.VideoObject) : Prop :=
  ∃ pre post, raw = pre ++ v :: post ∧ (DualPool.vid v ∉ map DualPool.vid post).

(** The identity of a scored video. *)
Definition scoredId (v : StrictFilter.ScoredVideo) : string := id (StrictFilter.video_of v).

(** ** Further concrete inputs *)

Definition kitchenChannel : Channel := mkChannel "UCk" "Kitchen" "".

(** The user of the end-to-end scenario, subscribed to one channel. *)
Definition subscriber : StrictFilter.RecommendationSource :=
  StrictFilter.mkSource [] [] [kitchenChannel] ["cooking"] [] None None None
    (Some ["violence"]) None None None None None None None None None 1.

(** Remote collaborators whose searches answer with two videos and whose
    channel feeds fail. *)
Definition cookingApi : Api Video :=
  mkApi (λ _ _, Fulfilled (mkVideoList [violentCooking; easyCooking]))
        (λ _, Rejected "network error")
        (λ _, Fulfilled (mkVideoDetails None))
        (Fulfilled (mkVideoList [])).

(** The same user with a preference for deep content. *)
Definition deepSubscriber : StrictFilter.RecommendationSource :=
  StrictFilter.mkSource [] [] [kitchenChannel] ["cooking"] [] None None None
    (Some ["violence"]) (Some "deep") None None None None None None None None 1.



(** Remote collaborators of the dual-pool pipeline whose recommended feed
    answers with the three videos of [poolA]. *)
Definition feedUp : Api DualPool.VideoObject :=
  mkApi (λ _ _, Fulfilled (mkVideoList []))
        (λ _, Fulfilled (mkVideoList []))
        (λ _, Fulfilled (mkVideoDetails None))
        (Fulfilled (mkVideoList poolA)).

(** A user of the dual-pool pipeline with two preferred genres. *)
Definition genreFan : DualPool.RecommendationSource :=
  DualPool.mkSource [] [] [] ["cooking"; "cats"; "cooking"] [] [] [] 1.


(** * Properties *)

(** ** The duration parser *)

Lemma append_cons x (a b : string) : String x a +:+ b = String x (a +:+ b).
Proof. reflexivity. Qed.




Lemma parseInt_from_nonneg s : ∀ acc, 0 <= acc → 0 <= parseInt_from acc s.
Proof.
  induction s as [|c s IH]; intros acc Hacc; simpl; [done|].
  destruct (is_digit c) eqn:Hc; [|done].
  apply IH. unfold is_digit in Hc. unfold digit_value.
  apply andb_prop in Hc as [Hlo _]. apply Nat.leb_le in Hlo. lia.
Qed.

Lemma group_value_nonneg g : 0 <= group_value g.
Proof. unfold group_value, parseInt. by apply parseInt_from_nonneg. Qed.

Lemma seconds_of_match_nonneg o : 0 <= seconds_of_match o.
Proof.
  destruct o as [[[h m] s]|]; simpl; [|done].
  pose proof (group_value_nonneg h). pose proof (group_value_nonneg m).
  pose proof (group_value_nonneg s). lia.
Qed.

Lemma parseDurationToSeconds_unguarded_eq s :
  parseDurationToSeconds_unguarded s = parseDurationToSeconds s.
Proof. by destruct s. Qed.

Lemma parseDurationToSeconds_nonneg str : 0 <= parseDurationToSeconds str.
Proof.
  unfold parseDurationToSeconds. destruct str; [done|].
  apply seconds_of_match_nonneg.
Qed.
















(** Where no [PT] starts, the search for a match moves on. *)
Lemma match_duration_step c str :
  String.prefix "PT" (String c str) = false →
  match_duration (String c str) = match_duration str.
Proof.
  intros Hpre.
  destruct (ascii_dec "P" c) as [<-|Hc].
  - destruct str as [|c' r]; [done|].
    destruct (ascii_dec "T" c') as [<-|Hc'].
    + exfalso. revert Hpre. cbn. by destruct r.
    + destruct c' as [[] [] [] [] [] [] [] []]; try reflexivity.
      by destruct Hc'.
  - destruct c as [[] [] [] [] [] [] [] []]; try reflexivity.
    by destruct Hc.
Qed.

Lemma match_duration_none str :
  includes str "PT" = false → match_duration str = None.
Proof.
  induction str as [|c str IH]; [done|].
  intros Hinc. cbn [includes] in Hinc.
  apply orb_false_elim in Hinc as [Hpre Hrest].
  rewrite match_duration_step by done. by apply IH.
Qed.

(** The pattern finds no match exactly in the strings without [PT]. *)
Lemma match_duration_none_iff str :
  match_duration str = None ↔ includes str "PT" = false.
Proof.
  split; [|apply match_duration_none].
  induction str as [|c str IH]; [done|].
  intros Hnone. cbn [includes].
  destruct (String.prefix "PT" (String c str)) eqn:Hpre.
  - exfalso. apply String.prefix_correct in Hpre. cbn in Hpre.
    destruct str as [|c' r]; [done|]. cbn in Hpre.
    assert (c = "P"%char ∧ c' = "T"%char) as [-> ->].
    { destruct r; cbn in Hpre; by injection Hpre. }
    cbn in Hnone. done.
  - rewrite match_duration_step in Hnone by done. by rewrite (IH Hnone).
Qed.



Example parse_1h2m3s : parseDurationToSeconds "PT1H2M3S" = 3723.
Proof. reflexivity. Qed.

Example parse_minutes_only : parseDurationToSeconds "PT5M" = 300.
Proof. reflexivity. Qed.

Example parse_not_a_duration : parseDurationToSeconds "five minutes" = 0.
Proof. reflexivity. Qed.

(** Components in another order, and text after the components: the
    match ends where the pattern stops, and what follows is not read. *)
Example parse_seconds_before_minutes : parseDurationToSeconds "PT5S3M" = 5.
Proof. reflexivity. Qed.

Example parse_text_after : parseDurationToSeconds "PT5Mgarbage" = 300.
Proof. reflexivity. Qed.

(** ** The scorer *)

Section ScorerProperties.
Import StrictFilter.
Context `{CaseFolding}.

Lemma shift_zero st : shift (0, []) st = st.
Proof. by destruct st. Qed.

Lemma array_includes_elem_of (l : list string) (x : string) :
  array_includes l x = true ↔ x ∈ l.
Proof.
  unfold array_includes. rewrite existsb_exists. split.
  - intros (y & Hy & Heq). apply String.eqb_eq in Heq as ->. by apply list_elem_of_In.
  - intros Hx. exists x. split; [by apply list_elem_of_In | apply String.eqb_refl].
Qed.

(** A text that occurs in a string occurs in the string with more text
    after it, or before it. *)
Lemma prefix_app_l (t a b : string) :
  String.prefix t a = true → String.prefix t (a +:+ b) = true.
Proof.
  revert a. induction t as [|x t IH]; intros a; [by destruct (a +:+ b)|].
  destruct a as [|y a]; [done|].
  rewrite append_cons. cbn [String.prefix].
  destruct (ascii_dec x y); [apply IH | done].
Qed.

Lemma includes_app_l (a b t : string) :
  includes a t = true → includes (a +:+ b) t = true.
Proof.
  induction a as [|x a IH]; intros Hinc.
  - cbn [includes] in Hinc. rewrite orb_false_r in Hinc.
    destruct t; [|done]. by destruct b.
  - rewrite append_cons. cbn [includes] in Hinc |- *.
    apply orb_prop in Hinc as [Hpre|Hrest].
    + apply (prefix_app_l _ _ b) in Hpre. rewrite append_cons in Hpre.
      by rewrite Hpre.
    + by rewrite (IH Hrest), orb_true_r.
Qed.

Lemma includes_app_r (a b t : string) :
  includes b t = true → includes (a +:+ b) t = true.
Proof.
  intros Hinc. induction a as [|x a IH]; [done|].
  rewrite append_cons. cbn [includes]. by rewrite IH, orb_true_r.
Qed.

(** What [find] returns is the first element that passes the test. *)
Lemma find_first {A : Type} (f : A → bool) (l : list A) (x : A) :
  List.find f l = Some x →
  f x = true ∧ ∃ pre post, l = pre ++ x :: post ∧ ∀ y, y ∈ pre → f y = false.
Proof.
  induction l as [|a l IH]; [done|]. cbn [List.find].
  destruct (f a) eqn:Hfa.
  - intros [= ->]. split; [done|]. exists [], l. split; [done|].
    intros y Hy. by apply elem_of_nil in Hy.
  - intros Hfind. destruct (IH Hfind) as (Hfx & pre & post & -> & Hpre).
    split; [done|]. exists (a :: pre), post. split; [done|].
    intros y Hy. apply elem_of_cons in Hy as [->|Hy]; [done | by apply Hpre].
Qed.

(** The text that the NG filter searches, field by field: a keyword that
    occurs in the folded title, in the folded description or in the
    folded channel name occurs in it. *)
Lemma fullText_fields (video : Video) (k : string) :
  includes (toLowerCase (title video)) k = true
  ∨ includes (toLowerCase (default "" (descriptionSnippet video))) k = true
  ∨ includes (toLowerCase (channelName video)) k = true →
  includes (toLowerCase (title video) +:+ " " +:+
            toLowerCase (default "" (descriptionSnippet video)) +:+ " " +:+
            toLowerCase (channelName video)) k = true.
Proof.
  intros [Ht|[Hd|Hc]].
  - by apply includes_app_l.
  - apply includes_app_r, includes_app_r. by apply includes_app_l.
  - by do 4 apply includes_app_r.
Qed.

Lemma scorePreferredChannel_shift video source d st :
  scorePreferredChannel video source (shift d st) = shift d (scorePreferredChannel video source st).
Proof.
  unfold scorePreferredChannel, shift. destruct (existsb _ _); simpl; [|done].
  f_equal; [lia | by rewrite app_assoc].
Qed.

Lemma scoreSubscribed_shift video source d st :
  scoreSubscribed video source (shift d st) = shift d (scoreSubscribed video source st).
Proof.
  unfold scoreSubscribed, shift. destruct (existsb _ _); simpl; [|done].
  f_equal; [lia | by rewrite app_assoc].
Qed.

Lemma scoreGenre_shift video d st genre :
  scoreGenre video (shift d st) genre = shift d (scoreGenre video st genre).
Proof.
  unfold scoreGenre, shift. destruct (includes _ _); simpl; [|done].
  f_equal; [lia | by rewrite app_assoc].
Qed.

Lemma scoreGenres_shift video source d st :
  scoreGenres video source (shift d st) = shift d (scoreGenres video source st).
Proof.
  unfold scoreGenres. revert st.
  induction (preferredGenres source) as [|g gs IH]; intros st; simpl; [done|].
  by rewrite scoreGenre_shift, IH.
Qed.

Lemma andThen_shifted d c (k : Z * list string → completion (Z * list string)) :
  (∀ st, k (shift d st) = shifted d (k st)) →
  andThen (shifted d c) k = shifted d (andThen c k).
Proof. intros Hk. destruct c; simpl; [apply Hk | done]. Qed.

Lemma checkContext_shift video prefVal d st :
  checkContext video prefVal (shift d st) = shifted d (checkContext video prefVal st).
Proof.
  unfold checkContext. destruct prefVal as [[|c v]|]; [done| |done].
  destruct (String.eqb _ "any"); [done|].
  destruct (lookup_property _); [|done|done].
  destruct (existsb _ _); [|done].
  simpl. unfold shift. simpl. by rewrite Z.add_assoc, app_assoc.
Qed.

Lemma scoreContext_shift video source d st :
  scoreContext video source (shift d st) = shifted d (scoreContext video source st).
Proof.
  unfold scoreContext.
  do 5 (rewrite checkContext_shift; apply andThen_shifted; clear st; intros st).
  apply checkContext_shift.
Qed.

Lemma scoreFreshness_shift video source d st :
  scoreFreshness video source (shift d st) = shift d (scoreFreshness video source st).
Proof.
  unfold scoreFreshness. destruct (preferredFreshness source); [|done].
  destruct (_ && _); [|done].
  unfold shift; simpl. f_equal; [lia | by rewrite app_assoc].
Qed.

Lemma laterRules_shift video source d st :
  laterRules video source (shift d st) = shifted d (laterRules video source st).
Proof.
  unfold laterRules.
  rewrite scorePreferredChannel_shift, scoreSubscribed_shift, scoreGenres_shift,
    scoreContext_shift.
  apply andThen_shifted. intros st'. simpl. by rewrite scoreFreshness_shift.
Qed.

Lemma laterRules_from video source d :
  laterRules video source d = shifted d (laterRules video source (0, [])).
Proof.
  rewrite <- laterRules_shift. f_equal. destruct d as [s rs]. unfold shift; simpl.
  f_equal; [lia | by rewrite app_nil_r].
Qed.

Lemma calculateScore_unfold video source :
  ngMatch video source = None →
  calculateScore video source = laterRules video source (scoreDuration video source (0, [])).
Proof. intros Hng. unfold calculateScore. by rewrite Hng. Qed.

Lemma ngMatch_withFreshness video source f :
  ngMatch video (withFreshness f source) = ngMatch video source.
Proof. done. Qed.

Lemma laterRules_withDurations video source d st :
  laterRules video (withDurations d source) st = laterRules video source st.
Proof. done. Qed.

(** A call of [checkContext] throws exactly for the names that the
    table inherits, and with the one error. *)
Lemma checkContext_throws video (p : string) st e :
  checkContext video (Some p) st = Throws e ↔ p ∈ objectPrototypeKeys ∧ e = notAFunction.
Proof.
  split.
  - unfold checkContext. destruct p as [|c v]; [done|].
    destruct (String.eqb _ "any"); [done|].
    unfold lookup_property. destruct (lookup_tag _ _); [by destruct (existsb _ _)|].
    destruct (array_includes _ _) eqn:Hinh; [|done].
    apply array_includes_elem_of in Hinh. by intros [= <-].
  - intros [Hp ->]. unfold objectPrototypeKeys in Hp.
    repeat (apply elem_of_cons in Hp as [->|Hp]; [reflexivity|]).
    by apply elem_of_nil in Hp.
Qed.

(** What a call of [checkContext] that returns does to the state: nothing,
    or +30 with its reason. *)
Lemma checkContext_returns video prefVal st st' :
  checkContext video prefVal st = Returns st' →
  st' = st ∨ ∃ p, prefVal = Some p ∧ st' = (st.1 + 30, st.2 ++ ["Context: " +:+ p]).
Proof.
  unfold checkContext. destruct prefVal as [[|c v]|]; [naive_solver| |naive_solver].
  destruct (String.eqb _ "any"); [naive_solver|].
  destruct (lookup_property _); [|done|naive_solver].
  destruct (existsb _ _); naive_solver.
Qed.

Lemma checkContext_safe video prefVal st :
  (∀ p, prefVal = Some p → p ∉ objectPrototypeKeys) →
  ∃ st', checkContext video prefVal st = Returns st'.
Proof.
  intros Hsafe. destruct (checkContext video prefVal st) as [st'|e] eqn:Hc; [eauto|].
  destruct prefVal as [p|]; [|done].
  apply checkContext_throws in Hc as [Hp _]. by destruct (Hsafe p).
Qed.

Lemma scoreContext_safe video source st :
  contextSafe source → ∃ st', scoreContext video source st = Returns st'.
Proof.
  intros Hsafe. unfold scoreContext.
  assert (Hs : ∀ pref, pref ∈ contextPreferences source →
            ∀ st0, ∃ st', checkContext video pref st0 = Returns st').
  { intros pref Hpref st0. apply checkContext_safe. intros p ->. by apply Hsafe. }
  unfold contextPreferences in Hs.
  destruct (Hs (prefDepth source) ltac:(set_solver) st) as [s1 ->]. simpl.
  destruct (Hs (prefVocal source) ltac:(set_solver) s1) as [s2 ->]. simpl.
  destruct (Hs (prefLive source) ltac:(set_solver) s2) as [s3 ->]. simpl.
  destruct (Hs (prefCommunity source) ltac:(set_solver) s3) as [s4 ->]. simpl.
  destruct (Hs (prefInfoEnt source) ltac:(set_solver) s4) as [s5 ->]. simpl.
  apply (Hs (prefVisual source) ltac:(set_solver) s5).
Qed.

(** Scoring returns for every source none of whose context preferences
    is an inherited name. *)
Lemma laterRules_safe video source st :
  contextSafe source → ∃ st', laterRules video source st = Returns st'.
Proof.
  intros Hsafe. unfold laterRules.
  destruct (scoreContext_safe video source
              (scoreGenres video source
                 (scoreSubscribed video source (scorePreferredChannel video source st))) Hsafe)
    as [st' ->].
  simpl. eauto.
Qed.

Lemma calculateScore_safe video source :
  contextSafe source → ∃ s reasons, calculateScore video source = Returns (s, reasons).
Proof.
  intros Hsafe. destruct (ngMatch video source) as [ng|] eqn:Hng.
  { unfold calculateScore. rewrite Hng. eauto. }
  rewrite calculateScore_unfold by done.
  destruct (laterRules_safe video source (scoreDuration video source (0, [])) Hsafe)
    as [[s rs] ->].
  eauto.
Qed.

(** The only error of the scorer. *)
Lemma scoreContext_error video source st e :
  scoreContext video source st = Throws e → e = notAFunction ∧ ¬ contextSafe source.
Proof.
  unfold scoreContext. intros Hthrow.
  assert (Hc : ∀ pref st0, pref ∈ contextPreferences source →
            checkContext video pref st0 = Throws e → e = notAFunction ∧ ¬ contextSafe source).
  { intros pref st0 Hpref Hc. destruct pref as [p|]; [|done].
    apply checkContext_throws in Hc as [Hp ->]. split; [done|].
    intros Hsafe. by apply (Hsafe p). }
  unfold contextPreferences in Hc.
  destruct (checkContext video (prefDepth source) st) as [s1|] eqn:E1;
    [simpl in Hthrow | injection Hthrow as ->; eapply Hc; [|exact E1]; set_solver].
  destruct (checkContext video (prefVocal source) s1) as [s2|] eqn:E2;
    [simpl in Hthrow | injection Hthrow as ->; eapply Hc; [|exact E2]; set_solver].
  destruct (checkContext video (prefLive source) s2) as [s3|] eqn:E3;
    [simpl in Hthrow | injection Hthrow as ->; eapply Hc; [|exact E3]; set_solver].
  destruct (checkContext video (prefCommunity source) s3) as [s4|] eqn:E4;
    [simpl in Hthrow | injection Hthrow as ->; eapply Hc; [|exact E4]; set_solver].
  destruct (checkContext video (prefInfoEnt source) s4) as [s5|] eqn:E5;
    [simpl in Hthrow | injection Hthrow as ->; eapply Hc; [|exact E5]; set_solver].
  eapply Hc; [|exact Hthrow]. set_solver.
Qed.

Lemma calculateScore_error video source e :
  calculateScore video source = Throws e →
  e = notAFunction ∧ ¬ contextSafe source ∧ ngMatch video source = None.
Proof.
  unfold calculateScore. destruct (ngMatch video source) as [ng|]; [done|].
  unfold scoreBeforeFreshness.
  destruct (scoreContext _ _ _) as [st|e'] eqn:Hc; [done|].
  intros [= ->]. apply scoreContext_error in Hc as [-> Hunsafe]. done.
Qed.

Lemma durationMatch_bucket preferred sec :
  durationMatch preferred sec = true ↔ inPreferredBucket preferred sec.
Proof.
  pose proof (array_includes_elem_of preferred) as Hinc.
  unfold durationMatch, inPreferredBucket, bucketOf. split.
  - intros Hm.
    repeat (apply orb_prop in Hm as [Hm|Hm]);
      repeat (apply andb_prop in Hm as [Hm ?]); apply Hinc in Hm.
    + exists "short". split; [|done].
      replace (0 <? sec) with true by (symmetry; done).
      by replace (sec <? 240) with true by (symmetry; done).
    + exists "medium". split; [|done].
      destruct ((0 <? sec) && (sec <? 240)) eqn:E; [lia|].
      replace (240 <=? sec) with true by (symmetry; done).
      by replace (sec <=? 1200) with true by (symmetry; done).
    + exists "long". split; [|done].
      destruct ((0 <? sec) && (sec <? 240)) eqn:E; [lia|].
      destruct ((240 <=? sec) && (sec <=? 1200)) eqn:E'; [lia|].
      by replace (1200 <? sec) with true by (symmetry; done).
  - intros (b & Hb & Hin).
    destruct ((0 <? sec) && (sec <? 240)) eqn:E.
    { injection Hb as <-. apply Hinc in Hin. rewrite Hin.
      apply andb_prop in E as [-> ->]. done. }
    destruct ((240 <=? sec) && (sec <=? 1200)) eqn:E'.
    { injection Hb as <-. apply Hinc in Hin. rewrite Hin.
      apply andb_prop in E' as [-> ->]. simpl. by rewrite orb_true_r. }
    destruct (1200 <? sec) eqn:E''; [|done].
    injection Hb as <-. apply Hinc in Hin. rewrite Hin. simpl. by rewrite !orb_true_r.
Qed.

(** C1: the text that the NG filter searches is the folded title, the
    folded description snippet (the empty string when there is none) and
    the folded channel name, with one space between them.  When some NG
    keyword of the source occurs, folded, in that text, [calculateScore]
    returns the score -10000 with the single reason that names the
    first keyword of the list that occurs, whatever the other
    preferences of the source are: no other rule is evaluated, not even
    one that would throw. *)
Theorem ng_short_circuit (video : Video) (source : RecommendationSource) (ngs : list string) :
  let text := toLowerCase (title video) +:+ " " +:+
              toLowerCase (default "" (descriptionSnippet video)) +:+ " " +:+
              toLowerCase (channelName video) in
  ngKeywords source = Some ngs →
  (∃ k, k ∈ ngs ∧ includes text (toLowerCase k) = true) →
  ∃ ng before after,
      ngs = before ++ ng :: after
      ∧ includes text (toLowerCase ng) = true
      ∧ (∀ k, k ∈ before → includes text (toLowerCase k) = false)
      ∧ calculateScore video source = Returns (-10000, ["NG Keyword: " +:+ ng])
      ∧ ∀ other : RecommendationSource,
          ngKeywords other = Some ngs →
          calculateScore video other = Returns (-10000, ["NG Keyword: " +:+ ng]).
Proof.
  intros text Hngs (k & Hk & Hinc).
  destruct (List.find (λ ng, includes text (toLowerCase ng)) ngs) as [ng|] eqn:Hfind.
  - apply find_first in Hfind as Hfirst.
    destruct Hfirst as (Hhit & before & after & Heq & Hbefore).
    exists ng, before, after. split; [done|]. split; [done|]. split; [done|].
    assert (Hcalc : ∀ s, ngKeywords s = Some ngs →
              calculateScore video s = Returns (-10000, ["NG Keyword: " +:+ ng])).
    { intros s Hs. unfold calculateScore, ngMatch, fullText, lowerChannel.
      rewrite Hs. fold text. by rewrite Hfind. }
    split; [by apply Hcalc | exact Hcalc].
  - apply list_elem_of_In in Hk.
    pose proof (find_none _ _ Hfind k Hk) as Hno. simpl in Hno. congruence.
Qed.

(** C2: with a non-empty set of preferred durations and no NG match,
    exactly one of three outcomes applies, relative to the score and the
    reasons that the same source without preferred durations gets: +200
    and the priority-match reason when the parsed duration is in a
    preferred bucket; -500 and the mismatch reason when it is non-zero
    and in no preferred bucket; nothing when it is 0.  The scorer throws
    with the preferred durations exactly when it throws without them,
    which it does for no source whose context preferences are safe. *)
Theorem duration_policy (video : Video) (source : RecommendationSource) (ds : list string) :
  preferredDurations source = Some ds → ds ≠ [] →
  ngMatch video source = None →
  let sec := parseDurationToSeconds (isoDuration video) in
  let base := calculateScore video (withDurations None source) in
  (inPreferredBucket ds sec → ∀ s reasons, base = Returns (s, reasons) →
     calculateScore video source
     = Returns (s + 200, "Duration Match (Priority)" :: reasons))
  ∧ (sec ≠ 0 → ¬ inPreferredBucket ds sec → ∀ s reasons, base = Returns (s, reasons) →
     calculateScore video source
     = Returns (s - 500, "Duration Mismatch (Penalty)" :: reasons))
  ∧ (sec = 0 →
     ¬ inPreferredBucket ds sec ∧ calculateScore video source = base)
  ∧ (∀ e, calculateScore video source = Throws e ↔ base = Throws e)
  ∧ (contextSafe source → ∃ s reasons, base = Returns (s, reasons)).
Proof.
  intros Hds Hne Hng sec base.
  assert (Hbase : base = laterRules video source (0, [])).
  { unfold base. rewrite calculateScore_unfold by done.
    by rewrite laterRules_withDurations. }
  assert (Hshift : ∃ d, calculateScore video source = shifted d base
            ∧ (inPreferredBucket ds sec → d = (200, ["Duration Match (Priority)"]))
            ∧ (sec ≠ 0 → ¬ inPreferredBucket ds sec → d = (-500, ["Duration Mismatch (Penalty)"]))
            ∧ (sec = 0 → ¬ inPreferredBucket ds sec ∧ d = (0, []))).
  { exists (scoreDuration video source (0, [])).
    split; [rewrite calculateScore_unfold by done; rewrite Hbase; apply laterRules_from|].
    assert (Hsec : 0 <= sec) by apply parseDurationToSeconds_nonneg.
    unfold scoreDuration. rewrite Hds. destruct ds as [|d ds]; [done|].
    fold sec. destruct (durationMatch (d :: ds) sec) eqn:Hm.
    - apply durationMatch_bucket in Hm as Hb. split; [done|]. split; [done|].
      intros Hz. exfalso. destruct Hb as (b & Hb & _). unfold bucketOf in Hb.
      rewrite Hz in Hb. done.
    - assert (Hnb : ¬ inPreferredBucket (d :: ds) sec).
      { intros Hb. apply durationMatch_bucket in Hb. congruence. }
      split; [done|]. split.
      + intros Hnz _. by replace (0 <? sec) with true by (symmetry; apply Z.ltb_lt; lia).
      + intros Hz. split; [done|]. by rewrite Hz. }
  destruct Hshift as (d & Hcalc & Hin & Hout & Hzero).
  rewrite Hcalc. clearbody base. split; [|split; [|split; [|split]]].
  - intros Hb s reasons ->. rewrite (Hin Hb). simpl. unfold shift. simpl.
    do 2 f_equal. lia.
  - intros Hnz Hnb s reasons ->. rewrite (Hout Hnz Hnb). simpl. unfold shift. simpl.
    do 2 f_equal. lia.
  - intros Hz. destruct (Hzero Hz) as [Hnb ->]. split; [done|].
    destruct base as [st|e]; simpl; [by rewrite shift_zero | done].
  - intros e. by destruct base.
  - intros Hsafe. rewrite Hbase.
    destruct (laterRules_safe video source (0, []) Hsafe) as [[s rs] ->]. eauto.
Qed.

(** X23: the freshness rule as the condition of the code has it: with
    no NG match and the freshness preference ['new'], the scorer adds
    +20 and the reason [Fresh], after every other reason, exactly when
    the recency descriptor contains one of the three Japanese markers or
    the English [hours ago]; with any other preference it adds nothing. *)
Theorem freshness_rule (video : Video) (source : RecommendationSource) :
  ngMatch video source = None →
  let base := calculateScore video (withFreshness None source) in
  let marked :=
    includes (uploadedAt video) "分前" || includes (uploadedAt video) "時間前"
    || includes (uploadedAt video) "日前" || includes (uploadedAt video) "hours ago" in
  (preferredFreshness source = Some "new" → marked = true →
     ∀ s reasons, base = Returns (s, reasons) →
     calculateScore video source = Returns (s + 20, reasons ++ ["Fresh"]))
  ∧ (preferredFreshness source = Some "new" → marked = false →
     calculateScore video source = base)
  ∧ (preferredFreshness source ≠ Some "new" → calculateScore video source = base).
Proof.
  intros Hng base marked.
  assert (Hfresh : isFresh video = marked).
  { unfold isFresh, freshMarkers, marked. cbn [existsb]. by rewrite orb_false_r, !orb_assoc. }
  assert (Hbase : base = andThen (scoreBeforeFreshness video source) Returns).
  { unfold base, calculateScore. by rewrite ngMatch_withFreshness, Hng. }
  rewrite Hbase. unfold calculateScore. rewrite Hng. unfold scoreFreshness.
  destruct (scoreBeforeFreshness video source) as [[s0 rs0]|e]; simpl.
  - split; [|split].
    + intros -> Hm s reasons [= <- <-]. by rewrite Hfresh, Hm.
    + intros -> Hm. by rewrite Hfresh, Hm.
    + intros Hne. destruct (preferredFreshness source) as [f|]; [|done].
      by destruct (String.eqb_spec f "new") as [->|Hf].
  - split; [|split]; [by intros _ _ s reasons [=] | done | done].
Qed.
End ScorerProperties.

(** ** Deduplication *)

Section Dedup.
Context {A : Type} (key : A → string).

Lemma foldl_keep_unseen (l : list A) : ∀ seen out,
  foldl (keep_unseen key) (seen, out) l
  = (list_to_set (map key l) ∪ seen, out ++ firstOccurrences key seen l).
Proof.
  induction l as [|v l IH]; intros seen out; simpl.
  - f_equal; [set_solver | by rewrite app_nil_r].
  - unfold keep_unseen at 2. simpl. destruct (decide (key v ∈ seen)) as [Hin|Hout].
    + rewrite IH. f_equal. set_solver.
    + rewrite IH. f_equal; [set_solver | by rewrite <- app_assoc].
Qed.

Lemma firstOccurrences_sublist (l : list A) : ∀ seen,
  sublist (firstOccurrences key seen l) l.
Proof.
  induction l as [|v l IH]; intros seen; simpl; [done|].
  destruct (decide _); [by apply sublist_cons | by apply sublist_skip].
Qed.

Lemma firstOccurrences_fresh (l : list A) : ∀ seen v,
  v ∈ firstOccurrences key seen l → key v ∉ seen.
Proof.
  induction l as [|x l IH]; intros seen v; simpl; [by intros ?%elem_of_nil|].
  destruct (decide _) as [Hin|Hout]; [by apply IH|].
  intros [->|Hv]%elem_of_cons; [done|].
  apply IH in Hv. set_solver.
Qed.

Lemma firstOccurrences_NoDup (l : list A) : ∀ seen,
  NoDup (map key (firstOccurrences key seen l)).
Proof.
  induction l as [|x l IH]; intros seen; simpl; [constructor|].
  destruct (decide _) as [Hin|Hout]; [by apply IH|].
  simpl. constructor; [|by apply IH].
  intros (w & Hk & Hw)%list_elem_of_fmap.
  apply firstOccurrences_fresh in Hw. set_solver.
Qed.

Lemma firstOccurrences_covers (l : list A) : ∀ seen v,
  v ∈ l → key v ∉ seen → key v ∈ map key (firstOccurrences key seen l).
Proof.
  induction l as [|x l IH]; intros seen v; simpl; [by intros ?%elem_of_nil|].
  intros [->|Hv]%elem_of_cons Hfresh.
  - destruct (decide _); [done|]. simpl. by left.
  - destruct (decide (key x ∈ seen)) as [Hin|Hout]; [by apply IH|].
    simpl. destruct (decide (key v = key x)) as [->|Hne]; [by left|].
    right. apply IH; [done | set_solver].
Qed.

(** An element is kept exactly when no element before it has its
    identity. *)
Lemma firstOccurrences_first (l : list A) : ∀ seen v,
  v ∈ firstOccurrences key seen l ↔
  ∃ pre post, l = pre ++ v :: post ∧ (key v ∉ seen) ∧ (key v ∉ map key pre).
Proof.
  induction l as [|x l IH]; intros seen v; simpl.
  - split; [by intros ?%elem_of_nil|]. intros (pre & post & Heq & _).
    by destruct pre.
  - destruct (decide (key x ∈ seen)) as [Hin|Hout].
    + rewrite IH. split.
      * intros (pre & post & -> & Hs & Hp). exists (x :: pre), post.
        split; [done|]. split; [done|]. simpl. rewrite not_elem_of_cons.
        split; [congruence | done].
      * intros (pre & post & Heq & Hs & Hp). destruct pre as [|y pre].
        { simpl in Heq. injection Heq as -> ->. done. }
        simpl in Heq. injection Heq as -> ->. exists pre, post.
        simpl in Hp. rewrite not_elem_of_cons in Hp. naive_solver.
    + rewrite elem_of_cons, IH. split.
      * intros [->|(pre & post & -> & Hs & Hp)].
        { exists [], l. split; [done|]. split; [done|]. simpl. apply not_elem_of_nil. }
        exists (x :: pre), post. split; [done|]. split; [set_solver|].
        simpl. rewrite not_elem_of_cons. split; [set_solver | done].
      * intros (pre & post & Heq & Hs & Hp). destruct pre as [|y pre].
        { simpl in Heq. injection Heq as -> ->. by left. }
        simpl in Heq. injection Heq as -> ->. right. exists pre, post.
        simpl in Hp. rewrite not_elem_of_cons in Hp. split; [done|].
        split; [set_solver | naive_solver].
Qed.

(** Nothing is dropped from a list of pairwise-distinct identities. *)
Lemma firstOccurrences_distinct (l : list A) : ∀ seen,
  NoDup (map key l) → (∀ v, v ∈ l → key v ∉ seen) →
  firstOccurrences key seen l = l.
Proof.
  induction l as [|x l IH]; intros seen Hnd Hfresh; simpl; [done|].
  simpl in Hnd. apply NoDup_cons in Hnd as [Hx Hnd].
  destruct (decide _) as [Hin|Hout].
  - exfalso. apply (Hfresh x); [by left | done].
  - f_equal. apply IH; [done|].
    intros v Hv. assert (Hfv : key v ∉ seen) by (apply Hfresh; by right).
    assert (key v ≠ key x); [|set_solver].
    clear Hfv. intros Heq. apply Hx. rewrite <- Heq. by apply list_elem_of_fmap_2.
Qed.
End Dedup.

(** ** The aggregator and the ranking of the strict-filter pipeline *)

Section StrictPipelineProperties.
Import StrictFilter.
Context `{CaseFolding}.

Lemma collect_fulfilled {A : Type} (lists : list (list A)) :
  collect (map Fulfilled lists) = concat lists.
Proof.
  unfold collect. induction lists as [|l lists IH]; [done|].
  cbn. by f_equal.
Qed.

Lemma deduplicate_firstOccurrences rawCandidates :
  deduplicate rawCandidates = firstOccurrences id ∅ rawCandidates.
Proof. unfold deduplicate. by rewrite foldl_keep_unseen. Qed.

(** C5: the aggregation step flattens the fetched lists in the order of
    the requests and keeps, for every id that occurs, exactly one entry,
    the first one with that id, the kept entries staying in the order
    in which they were met. *)
Theorem aggregation_first_seen (lists : list (list Video)) :
  let rawCandidates := collect (map Fulfilled lists) in
  let uniqueCandidates := deduplicate rawCandidates in
  rawCandidates = concat lists
  ∧ sublist uniqueCandidates rawCandidates
  ∧ NoDup (map id uniqueCandidates)
  ∧ (∀ v, v ∈ rawCandidates → id v ∈ map id uniqueCandidates)
  ∧ (∀ v, v ∈ uniqueCandidates ↔
          ∃ pre post, rawCandidates = pre ++ v :: post ∧ (id v ∉ map id pre)).
Proof.
  intros rawCandidates uniqueCandidates. unfold uniqueCandidates.
  rewrite deduplicate_firstOccurrences.
  split; [apply collect_fulfilled|].
  split; [apply firstOccurrences_sublist|].
  split; [apply firstOccurrences_NoDup|].
  split.
  - intros v Hv. apply firstOccurrences_covers; [done | set_solver].
  - intros v. rewrite firstOccurrences_first. split.
    + intros (pre & post & Heq & _ & Hp). by exists pre, post.
    + intros (pre & post & Heq & Hp). exists pre, post.
      split; [done|]. split; [set_solver | done].
Qed.

Lemma insertByScore_Permutation x l : insertByScore x l ≡ₚ x :: l.
Proof.
  induction l as [|y l IH]; simpl; [done|].
  destruct (score x <? score y); [|done].
  rewrite IH. apply Permutation_swap.
Qed.

Lemma sortByScore_Permutation l : sortByScore l ≡ₚ l.
Proof.
  induction l as [|x l IH]; simpl; [done|].
  by rewrite insertByScore_Permutation, IH.
Qed.

Lemma insertByScore_descending x l :
  descending l → descending (insertByScore x l).
Proof.
  unfold descending. induction l as [|y l IH]; intros Hl; simpl.
  - repeat constructor.
  - apply StronglySorted_cons in Hl as [Hy Hl].
    destruct (score x <? score y) eqn:Hxy.
    + apply Z.ltb_lt in Hxy. apply StronglySorted_cons. split; [|by apply IH].
      rewrite Forall_forall. intros z Hz.
      rewrite insertByScore_Permutation in Hz.
      apply elem_of_cons in Hz as [->|Hz]; [lia|].
      rewrite Forall_forall in Hy. by apply Hy.
    + apply Z.ltb_ge in Hxy. apply StronglySorted_cons. split.
      * constructor; [done|]. rewrite Forall_forall in Hy |- *.
        intros z Hz. specialize (Hy z Hz). simpl in Hy. lia.
      * by apply StronglySorted_cons.
Qed.

Lemma sortByScore_descending l : descending (sortByScore l).
Proof.
  induction l as [|x l IH]; simpl; [constructor|].
  by apply insertByScore_descending.
Qed.

Lemma descending_take n l : descending l → descending (take n l).
Proof.
  unfold descending. intros Hl. rewrite <- (take_drop n l) in Hl.
  by apply StronglySorted_app_1_l in Hl.
Qed.

(** What the scoring [map] returns: for every candidate, in order, the
    candidate with the score and the reasons that [calculateScore]
    returned for it. *)
Lemma scoreAll_Forall2 sources candidates : ∀ scoredVideos,
  scoreAll sources candidates = Returns scoredVideos →
  Forall2 (λ video v, video_of v = video
                      ∧ calculateScore video sources = Returns (score v, debugReason v))
          candidates scoredVideos.
Proof.
  induction candidates as [|video rest IH]; intros scoredVideos; cbn [scoreAll].
  - intros [= <-]. constructor.
  - unfold scoreVideo.
    destruct (calculateScore video sources) as [[s reasons]|e] eqn:Hcalc; [|done].
    cbn [andThen].
    destruct (scoreAll sources rest) as [scoredRest|e] eqn:Hrest; [|done].
    cbn [andThen]. intros [= <-]. constructor; [done|]. by apply IH.
Qed.

(** The scoring [map] returns when every call of the scorer does. *)
Lemma scoreAll_returns sources candidates :
  (∀ video, video ∈ candidates → ∃ st, calculateScore video sources = Returns st) →
  ∃ scoredVideos, scoreAll sources candidates = Returns scoredVideos.
Proof.
  induction candidates as [|video rest IH]; intros Hall; cbn [scoreAll]; [eauto|].
  destruct (Hall video) as [[s reasons] Hcalc]; [by left|].
  unfold scoreVideo. rewrite Hcalc. cbn [andThen].
  destruct IH as [scoredRest ->]; [intros v Hv; apply Hall; by right|].
  cbn [andThen]. eauto.
Qed.

(** An exception of a call of the scorer is the exception of the [map]
    (of the first call that throws). *)
Lemma scoreAll_throws sources candidates video e :
  video ∈ candidates → calculateScore video sources = Throws e →
  ∃ e', scoreAll sources candidates = Throws e'.
Proof.
  induction candidates as [|c rest IH]; intros Hin Hthrow; [by apply elem_of_nil in Hin|].
  cbn [scoreAll]. unfold scoreVideo.
  destruct (calculateScore c sources) as [[s reasons]|e0] eqn:Hc; [|cbn; eauto].
  cbn [andThen]. apply elem_of_cons in Hin as [->|Hin]; [congruence|].
  destruct (IH Hin Hthrow) as [e' ->]. cbn. eauto.
Qed.

(** An exception of the [map] is the exception of a call of the scorer. *)
Lemma scoreAll_error sources candidates e :
  scoreAll sources candidates = Throws e →
  ∃ video, video ∈ candidates ∧ calculateScore video sources = Throws e.
Proof.
  induction candidates as [|c rest IH]; [done|].
  cbn [scoreAll]. unfold scoreVideo.
  destruct (calculateScore c sources) as [[s reasons]|e0] eqn:Hc.
  - cbn [andThen]. destruct (scoreAll sources rest) as [scoredRest|e1]; [done|].
    cbn [andThen]. intros [= ->]. destruct IH as (video & Hin & Hthrow); [done|].
    exists video. split; [by right | done].
  - cbn [andThen]. intros [= ->]. exists c. split; [by left | done].
Qed.

Lemma selectTop_spec (scoredVideos : list ScoredVideo) :
  ∃ survivors : list ScoredVideo,
    selectTop scoredVideos = take 50 survivors
    ∧ survivors ≡ₚ filter (λ v, -100 < score v) scoredVideos
    ∧ (∀ v, v ∈ survivors ↔ v ∈ scoredVideos ∧ -100 < score v)
    ∧ (∀ v, score v <= -100 → v ∉ take 50 survivors)
    ∧ descending survivors
    ∧ descending (take 50 survivors)
    ∧ (length (take 50 survivors) <= 50)%nat.
Proof.
  exists (sortByScore (filter (λ v, -100 < score v) scoredVideos)).
  assert (Hmem : ∀ v, v ∈ sortByScore (filter (λ v, -100 < score v) scoredVideos)
                      ↔ v ∈ scoredVideos ∧ -100 < score v).
  { intros v. rewrite sortByScore_Permutation, list_elem_of_filter. tauto. }
  split; [done|]. split; [apply sortByScore_Permutation|]. split; [exact Hmem|].
  split; [|split; [|split]].
  - intros v Hlow Hin.
    apply elem_of_take in Hin as (i & Hi & _).
    assert (Hv : v ∈ sortByScore (filter (λ v, -100 < score v) scoredVideos)).
    { apply list_elem_of_lookup. by exists i. }
    apply Hmem in Hv. lia.
  - apply sortByScore_descending.
  - apply descending_take, sortByScore_descending.
  - rewrite length_take. lia.
Qed.

(** C8: of the scored videos, exactly those whose score is at most -100
    are rejected; the survivors are put in descending order of score;
    the result is the first 50 of them at most.  The scored videos of
    the pipeline are the deduplicated candidates, in order, each with
    the score and the reasons that [calculateScore] returned for it;
    the pipeline has them, and returns that result, when no call of the
    scorer throws. *)
Theorem rank_threshold_sort_cap (sources : RecommendationSource) (candidates : list Video)
    (scoredVideos : list ScoredVideo) :
  ∃ survivors : list ScoredVideo,
    selectTop scoredVideos = take 50 survivors
    ∧ (scoreAll sources candidates = Returns scoredVideos →
       rank sources candidates = Returns (take 50 survivors)
       ∧ Forall2 (λ video v, video_of v = video
                             ∧ calculateScore video sources = Returns (score v, debugReason v))
                 candidates scoredVideos)
    ∧ survivors ≡ₚ filter (λ v, -100 < score v) scoredVideos
    ∧ (∀ v, v ∈ survivors ↔ v ∈ scoredVideos ∧ -100 < score v)
    ∧ (∀ v, score v <= -100 → v ∉ take 50 survivors)
    ∧ descending survivors
    ∧ descending (take 50 survivors)
    ∧ (length (take 50 survivors) <= 50)%nat.
Proof.
  destruct (selectTop_spec scoredVideos) as (survivors & Htop & Hrest).
  exists survivors. split; [done|]. split; [|done].
  intros Hscored. split; [|by apply scoreAll_Forall2].
  unfold rank. rewrite Hscored. cbn [andThen]. by rewrite Htop.
Qed.
End StrictPipelineProperties.

(** ** The pool mixer *)

Section Interleaving.
Context {A : Type}.
Implicit Types xs ys zs : list A.

Lemma interleaving_snoc_left xs ys zs a :
  interleaving xs ys zs → interleaving (xs ++ [a]) ys (zs ++ [a]).
Proof.
  induction 1 as [|x xs ys zs _ IH|y xs ys zs _ IH]; simpl.
  - apply interleaving_left, interleaving_nil.
  - by apply interleaving_left.
  - by apply interleaving_right.
Qed.

Lemma interleaving_snoc_right xs ys zs b :
  interleaving xs ys zs → interleaving xs (ys ++ [b]) (zs ++ [b]).
Proof.
  induction 1 as [|x xs ys zs _ IH|y xs ys zs _ IH]; simpl.
  - apply interleaving_right, interleaving_nil.
  - by apply interleaving_left.
  - by apply interleaving_right.
Qed.

Lemma interleaving_Permutation xs ys zs :
  interleaving xs ys zs → zs ≡ₚ xs ++ ys.
Proof.
  induction 1 as [|x xs ys zs _ IH|y xs ys zs _ IH]; simpl.
  - done.
  - by rewrite IH.
  - rewrite IH. apply Permutation_middle.
Qed.

Lemma interleaving_sublist_left xs ys zs : interleaving xs ys zs → sublist xs zs.
Proof. induction 1; [done | by apply sublist_skip | by apply sublist_cons]. Qed.

Lemma interleaving_sublist_right xs ys zs : interleaving xs ys zs → sublist ys zs.
Proof. induction 1; [done | by apply sublist_cons | by apply sublist_skip]. Qed.
End Interleaving.

Section MixerProperties.
Import DualPool.
Variables (discoveryList comfortList : list VideoObject) (below : ratio_test).

(** While input is left, an iteration takes the next element of one of
    the two lists and passes it to the identity check. *)
Lemma mixStep_consumes (st : MixState) :
  (idxA st + idxB st < length discoveryList + length comfortList)%nat →
  (idxA st ≤ length discoveryList)%nat → (idxB st ≤ length comfortList)%nat →
  (∃ a, discoveryList !! idxA st = Some a ∧
        mixStep discoveryList comfortList below st
        = {| idxA := S (idxA st); idxB := idxB st;
                     result := (keep_unseen vid (seenIds st, result st) a).2;
                     seenIds := (keep_unseen vid (seenIds st, result st) a).1 |})
  ∨ (∃ b, comfortList !! idxB st = Some b ∧
          mixStep discoveryList comfortList below st
          = {| idxA := idxA st; idxB := S (idxB st);
                       result := (keep_unseen vid (seenIds st, result st) b).2;
                       seenIds := (keep_unseen vid (seenIds st, result st) b).1 |}).
Proof.
  intros Hleft HA HB. unfold mixStep.
  destruct (idxA st <? length discoveryList)%nat eqn:EA;
    destruct (idxB st <? length comfortList)%nat eqn:EB; simpl.
  - apply Nat.ltb_lt in EA, EB.
    destruct (lookup_lt_is_Some_2 _ _ EA) as [a Ha].
    destruct (lookup_lt_is_Some_2 _ _ EB) as [b Hb].
    destruct (below _ _); simpl.
    + left. exists a. split; [done|]. rewrite Ha. by destruct (keep_unseen _ _ _).
    + right. exists b. split; [done|]. rewrite Hb. by destruct (keep_unseen _ _ _).
  - apply Nat.ltb_lt in EA.
    destruct (lookup_lt_is_Some_2 _ _ EA) as [a Ha].
    left. exists a. split; [done|]. rewrite Ha. by destruct (keep_unseen _ _ _).
  - apply Nat.ltb_lt in EB.
    destruct (lookup_lt_is_Some_2 _ _ EB) as [b Hb].
    right. exists b. split; [done|]. rewrite Hb. by destruct (keep_unseen _ _ _).
  - apply Nat.ltb_ge in EA, EB. lia.
Qed.

(** After [k] iterations the loop has taken [k] elements, a prefix of
    each list, and its result is what the identity check keeps of them in
    the order in which they were taken. *)
Lemma mixLoop_invariant (k : nat) :
  (k ≤ length discoveryList + length comfortList)%nat →
  let st := mixLoop discoveryList comfortList below k in
  ∃ taken,
    interleaving (take (idxA st) discoveryList) (take (idxB st) comfortList) taken
    ∧ (idxA st ≤ length discoveryList)%nat ∧ (idxB st ≤ length comfortList)%nat
    ∧ (idxA st + idxB st = k)%nat
    ∧ (seenIds st, result st) = foldl (keep_unseen vid) (∅, []) taken.
Proof.
  induction k as [|k IH]; intros Hk; simpl.
  - exists []. repeat split; simpl; try lia. rewrite !take_0. constructor.
  - destruct IH as (taken & Hint & HA & HB & Hsum & Hst); [lia|].
    unfold mixLoop. simpl. fold (mixLoop discoveryList comfortList below k).
    set (st := mixLoop discoveryList comfortList below k) in *.
    destruct (mixStep_consumes st) as [(a & Ha & ->)|(b & Hb & ->)]; try lia; simpl.
    + exists (taken ++ [a]). rewrite (take_S_r _ _ _ Ha).
      split; [by apply interleaving_snoc_left|].
      apply lookup_lt_Some in Ha.
      repeat split; try lia.
      rewrite foldl_app. simpl. rewrite <- Hst. by destruct (keep_unseen _ _ _).
    + exists (taken ++ [b]). rewrite (take_S_r _ _ _ Hb).
      split; [by apply interleaving_snoc_right|].
      apply lookup_lt_Some in Hb.
      repeat split; try lia.
      rewrite foldl_app. simpl. rewrite <- Hst. by destruct (keep_unseen _ _ _).
Qed.

(** The mixer takes every element of both lists, in some interleaving,
    and returns the first occurrences of the identities in it. *)
Lemma mixFeeds_schedule :
  ∃ taken,
    interleaving discoveryList comfortList taken
    ∧ mixFeeds discoveryList comfortList below = firstOccurrences vid ∅ taken.
Proof.
  destruct (mixLoop_invariant (length discoveryList + length comfortList))
    as (taken & Hint & HA & HB & Hsum & Hst); [done|].
  exists taken. unfold mixFeeds.
  set (st := mixLoop _ _ _ _) in *.
  assert (idxA st = length discoveryList) as EA by lia.
  assert (idxB st = length comfortList) as EB by lia.
  rewrite EA, EB, !firstn_all in Hint. split; [done|].
  rewrite foldl_keep_unseen in Hst. by injection Hst.
Qed.
(** C3: for two lists whose ids are pairwise distinct, within and
    across the lists, and for every ratio test (so for every ratio), the
    mixer returns every element of both lists exactly once, the
    elements of each list in the order of that list. *)
Theorem mixFeeds_lossless_order_preserving :
  NoDup (map vid (discoveryList ++ comfortList)) →
  let mixed := mixFeeds discoveryList comfortList below in
  interleaving discoveryList comfortList mixed
  ∧ mixed ≡ₚ discoveryList ++ comfortList
  ∧ NoDup mixed
  ∧ sublist discoveryList mixed
  ∧ sublist comfortList mixed.
Proof.
  intros Hnd mixed. unfold mixed.
  destruct mixFeeds_schedule as (taken & Hint & ->).
  pose proof (interleaving_Permutation _ _ _ Hint) as Hperm.
  rewrite firstOccurrences_distinct.
  - split; [done|]. split; [done|]. split.
    + rewrite Hperm. by apply NoDup_fmap_1 in Hnd.
    + split; [by eapply interleaving_sublist_left | by eapply interleaving_sublist_right].
  - by rewrite Hperm.
  - intros v _. set_solver.
Qed.

(** C4: whatever the two pools and the ratio test, the ids of the
    output are pairwise distinct, every id of an input pool is the id of
    (exactly one) output video, every output video comes from a pool,
    and the loop ends with both pools consumed: a duplicate is taken and
    skipped, never put back. *)
Theorem mixFeeds_distinct_ids :
  let mixed := mixFeeds discoveryList comfortList below in
  let final :=
    mixLoop discoveryList comfortList below (length discoveryList + length comfortList) in
  NoDup (map vid mixed)
  ∧ (∀ v, v ∈ discoveryList ++ comfortList → vid v ∈ map vid mixed)
  ∧ (∀ w, w ∈ mixed → w ∈ discoveryList ++ comfortList)
  ∧ idxA final = length discoveryList
  ∧ idxB final = length comfortList.
Proof.
  intros mixed final.
  assert (Hends : idxA final = length discoveryList ∧ idxB final = length comfortList).
  { destruct (mixLoop_invariant (length discoveryList + length comfortList))
      as (taken & _ & HA & HB & Hsum & _); [done|].
    fold final in HA, HB, Hsum. lia. }
  unfold mixed. destruct mixFeeds_schedule as (taken & Hint & ->).
  pose proof (interleaving_Permutation _ _ _ Hint) as Hperm.
  split; [apply firstOccurrences_NoDup|]. split; [|split; [|done]].
  - intros v Hv. apply firstOccurrences_covers; [by rewrite Hperm | set_solver].
  - intros w Hw. rewrite <- Hperm.
    pose proof (firstOccurrences_sublist vid taken ∅) as Hsub.
    by eapply elem_of_sublist.
Qed.
End MixerProperties.

(** ** Randomised steps: the shuffle permutes, the filter selects *)

Section RandomSteps.
Context {A : Type}.

(** The index drawn for a positive bound is below the bound: the two
    lookups of a swap of the shuffle succeed. *)
Lemma floor_scaled_lt (x : unit_draw) (bound : nat) :
  (0 < bound)%nat → (floor_scaled x bound < bound)%nat.
Proof.
  intros Hb. unfold floor_scaled.
  destruct (draw_range x) as [Hlo Hhi].
  set (y := (draw_value x * inject_Z (Z.of_nat bound))%Q).
  assert (Hb0 : (0 < inject_Z (Z.of_nat bound))%Q).
  { rewrite <- (Zlt_Qlt 0). lia. }
  assert (Hy0 : (0 <= y)%Q).
  { apply Qmult_le_0_compat; [done | by apply Qlt_le_weak]. }
  assert (Hy1 : (y < inject_Z (Z.of_nat bound))%Q).
  { unfold y. rewrite <- (Qmult_1_l (inject_Z (Z.of_nat bound))) at 2.
    by apply Qmult_lt_compat_r. }
  assert (Hf0 : 0 <= Qfloor y).
  { change 0 with (Qfloor 0). by apply Qfloor_resp_le. }
  assert (Hf1 : Qfloor y < Z.of_nat bound).
  { rewrite Zlt_Qlt. eapply Qle_lt_trans; [apply Qfloor_le | done]. }
  lia.
Qed.

Lemma swap_Permutation (i j : nat) (a : list A) : swap i j a ≡ₚ a.
Proof.
  unfold swap. destruct (a !! i) as [u|] eqn:Hi; [|done].
  destruct (a !! j) as [w|] eqn:Hj; [|done].
  by apply Permutation_insert_swap.
Qed.

Lemma shuffle_loop_Permutation (i : nat) :
  ∀ (a : list A) g, (shuffle_loop i a g).1 ≡ₚ a.
Proof.
  induction i as [|i IH]; intros a g; simpl; [done|].
  unfold mbind, rand_bind.
  destruct (randomBelow (S i + 1) g) as [j g1].
  etrans; [apply IH | apply swap_Permutation].
Qed.

(** [shuffleArray] returns a permutation of its argument. *)
Lemma shuffleArray_Permutation (a : list A) g : (shuffleArray a g).1 ≡ₚ a.
Proof. apply shuffle_loop_Permutation. Qed.

Lemma rand_filter_sublist (f : A → Rand bool) (l : list A) :
  ∀ g, sublist (rand_filter f l g).1 l.
Proof.
  induction l as [|y l IH]; intros g; simpl; [done|].
  unfold mbind, rand_bind, mret, rand_ret.
  destruct (f y g) as [keep g1].
  specialize (IH g1).
  destruct (rand_filter f l g1) as [rest g2]. simpl in *.
  destruct keep; [by apply sublist_skip | by apply sublist_cons].
Qed.
End RandomSteps.

(** ** The filtering loop of the shuffling pipeline *)

Section ShufflingProperties.
Import Shuffling.
Context `{CaseFolding}.

(** The loop looks at the first occurrence of every id, and only at it. *)
Lemma foldl_filterStep sources (l : list Video) : ∀ seen out,
  foldl (filterStep sources) (seen, out) l
  = (list_to_set (map id l) ∪ seen,
     out ++ filter (λ v, rejected sources v = false) (firstOccurrences id seen l)).
Proof.
  induction l as [|v l IH]; intros seen out; simpl.
  - f_equal; [set_solver | by rewrite app_nil_r].
  - unfold filterStep at 2. simpl. destruct (decide (id v ∈ seen)) as [Hin|Hout].
    + rewrite IH. f_equal. set_solver.
    + destruct (rejected sources v) eqn:Hrej; rewrite IH.
      * rewrite filter_cons_False by congruence. f_equal. set_solver.
      * rewrite filter_cons_True by done. f_equal; [set_solver|].
        by rewrite <- app_assoc.
Qed.

Lemma filterCandidates_spec sources combinedVideos :
  filterCandidates sources combinedVideos
  = filter (λ v, rejected sources v = false) (firstOccurrences id ∅ combinedVideos).
Proof. unfold filterCandidates. by rewrite foldl_filterStep. Qed.

Lemma NoDup_fmap_eq {A B : Type} (f : A → B) (l : list A) x y :
  NoDup (map f l) → x ∈ l → y ∈ l → f x = f y → x = y.
Proof.
  induction l as [|z l IH]; simpl; [by intros _ ?%elem_of_nil|].
  intros [Hz Hnd]%NoDup_cons [->|Hx]%elem_of_cons [->|Hy]%elem_of_cons Heq.
  - done.
  - exfalso. apply Hz. rewrite Heq. by apply list_elem_of_fmap_2.
  - exfalso. apply Hz. rewrite <- Heq. by apply list_elem_of_fmap_2.
  - by apply IH.
Qed.

Lemma finish_subseteq sources filteredVideos g x :
  x ∈ (finish sources filteredVideos g).1 → x ∈ filteredVideos.
Proof.
  unfold finish, mbind, rand_bind, mret, rand_ret.
  destruct (thinShorts sources filteredVideos g) as [thinned g1] eqn:Hthin.
  destruct (shuffleArray thinned g1) as [shuffled g2] eqn:Hshuf. simpl.
  intros Hx%elem_of_take. destruct Hx as (i & Hi & _).
  assert (Hs : x ∈ shuffled) by (apply list_elem_of_lookup; eauto).
  assert (Ht : x ∈ thinned).
  { rewrite <- (shuffleArray_Permutation thinned g1). by rewrite Hshuf. }
  assert (thinned = (thinShorts sources filteredVideos g).1) as -> by by rewrite Hthin.
  revert Ht. unfold thinShorts. destruct (20 <? length filteredVideos)%nat; [|done].
  intros Ht. eapply elem_of_sublist; [exact Ht | apply rand_filter_sublist].
Qed.

Lemma getDeeplyAnalyzedRecommendations_output api sources uniqueQueries g :
  ∃ g',
    (getDeeplyAnalyzedRecommendations api sources uniqueQueries g).1
    = Fulfilled (finish sources
                   (filterCandidates sources (combinedVideosOf api sources uniqueQueries g))
                   g').1.
Proof.
  unfold getDeeplyAnalyzedRecommendations, combinedVideosOf, mbind, rand_bind, mret, rand_ret.
  destruct (subRequests api sources g) as [subPromises g1]. simpl.
  exists g1. by destruct (finish _ _ _).
Qed.

(** C10: the id of a candidate is recorded before the filters look at
    it.  When the first candidate with some id is rejected by a filter,
    no video with that id is left by the loop, none is in what follows
    the loop, and none is in the list the pipeline returns, whatever
    the later candidates with that id are. *)
Theorem first_copy_rejected_drops_id (sources : RecommendationSource)
    (combinedVideos pre post : list Video) (v : Video) :
  combinedVideos = pre ++ v :: post →
  id v ∉ map id pre →
  rejected sources v = true →
  (∀ w, w ∈ filterCandidates sources combinedVideos → id w ≠ id v)
  ∧ (∀ g w, w ∈ (finish sources (filterCandidates sources combinedVideos) g).1 →
            id w ≠ id v)
  ∧ (∀ api uniqueQueries g,
       combinedVideosOf api sources uniqueQueries g = combinedVideos →
       ∃ out,
         (getDeeplyAnalyzedRecommendations api sources uniqueQueries g).1 = Fulfilled out
         ∧ ∀ w, w ∈ out → id w ≠ id v).
Proof.
  intros Hsplit Hfirst Hrej.
  assert (Hloop : ∀ w, w ∈ filterCandidates sources combinedVideos → id w ≠ id v).
  { intros w Hw Heq. rewrite filterCandidates_spec in Hw.
    apply list_elem_of_filter in Hw as [Hok Hw].
    assert (Hv : v ∈ firstOccurrences id ∅ combinedVideos).
    { apply firstOccurrences_first. exists pre, post. split; [done|].
      split; [set_solver | done]. }
    assert (w = v) as ->; [|congruence].
    eapply (NoDup_fmap_eq id); [apply (firstOccurrences_NoDup id)|done|done|done]. }
  split; [exact Hloop|]. split.
  - intros g w Hw. apply Hloop. by eapply finish_subseteq.
  - intros api uniqueQueries g Hcomb.
    destruct (getDeeplyAnalyzedRecommendations_output api sources uniqueQueries g)
      as [g' Hout].
    eexists. split; [exact Hout|].
    intros w Hw. apply Hloop. rewrite <- Hcomb. by eapply finish_subseteq.
Qed.
End ShufflingProperties.

(** ** Failures of the remote calls *)

Section ErrorHandling.

Lemma catch_fulfilled {A : Type} (p : promise A) (f : string → A) :
  ∃ a, catch_ p f = Fulfilled a.
Proof. destruct p; simpl; eauto. Qed.

Lemma promise_all_fulfilled {A : Type} (ps : list (promise A)) :
  Forall (λ p, ∃ a, p = Fulfilled a) ps → ∃ l, promise_all ps = Fulfilled l.
Proof.
  induction 1 as [|p ps [a ->] _ [l IH]]; simpl; [eauto|].
  rewrite IH. simpl. eauto.
Qed.

Lemma Forall_map_catch {A B : Type} (l : list B) (q : B → promise A) (f : B → string → A) :
  Forall (λ p, ∃ a, p = Fulfilled a) (map (λ b, catch_ (q b) (f b)) l).
Proof. induction l; simpl; constructor; [apply catch_fulfilled | done]. Qed.

(** The requests of the strict-filter pipeline are all caught: whatever
    the remote calls do, the pipeline reaches its scoring step, and its
    promise settles as that step ends. *)
Lemma strict_pipeline_settles `{CaseFolding} (api : Api Video)
    (sources : StrictFilter.RecommendationSource) (uniqueQueries : list string) g :
  (StrictFilter.getDeeplyAnalyzedRecommendations api sources uniqueQueries g).1
  = settle (StrictFilter.rank sources
              (StrictFilter.deduplicate
                 (collect (StrictFilter.searchRequests api uniqueQueries
                           ++ StrictFilter.channelRequests api
                                (StrictFilter.chooseSubs sources g).1)))).
Proof.
  unfold StrictFilter.getDeeplyAnalyzedRecommendations, mbind, rand_bind, mret, rand_ret.
  by destruct (StrictFilter.chooseSubs sources g) as [subs g1].
Qed.

Lemma rank_safe `{CaseFolding} (sources : StrictFilter.RecommendationSource)
    (candidates : list Video) :
  contextSafe sources → ∃ out, StrictFilter.rank sources candidates = Returns out.
Proof.
  intros Hsafe. unfold StrictFilter.rank.
  destruct (scoreAll_returns sources candidates) as [scoredVideos ->]; [|simpl; eauto].
  intros video _. destruct (calculateScore_safe video sources Hsafe) as (s & rs & ->). eauto.
Qed.

(** The strict-filter pipeline returns a list whatever the remote calls
    do, for every source none of whose context preferences is a name
    that object literals inherit. *)
Lemma strict_pipeline_fulfils_when_safe `{CaseFolding} (api : Api Video)
    (sources : StrictFilter.RecommendationSource) (uniqueQueries : list string) g :
  contextSafe sources →
  ∃ out,
    (StrictFilter.getDeeplyAnalyzedRecommendations api sources uniqueQueries g).1
    = Fulfilled out.
Proof.
  intros Hsafe. rewrite strict_pipeline_settles.
  destruct (rank_safe sources
              (StrictFilter.deduplicate
                 (collect (StrictFilter.searchRequests api uniqueQueries
                           ++ StrictFilter.channelRequests api
                                (StrictFilter.chooseSubs sources g).1))) Hsafe) as [out ->].
  simpl. eauto.
Qed.

(** X22: scoring is under no [catch]: when one of the six context
    preferences names a property that object literals inherit, and one
    deduplicated candidate passes the NG filter, the promise of the
    strict-filter pipeline is rejected with the error of the call of
    [some], whatever the remote calls answered. *)
Theorem strict_pipeline_rejects `{CaseFolding} (api : Api Video)
    (sources : StrictFilter.RecommendationSource) (uniqueQueries : list string) g
    (p : string) (video : Video) :
  Some p ∈ contextPreferences sources → p ∈ StrictFilter.objectPrototypeKeys →
  video ∈ StrictFilter.deduplicate
            (collect (StrictFilter.searchRequests api uniqueQueries
                      ++ StrictFilter.channelRequests api
                           (StrictFilter.chooseSubs sources g).1)) →
  StrictFilter.ngMatch video sources = None →
  (StrictFilter.getDeeplyAnalyzedRecommendations api sources uniqueQueries g).1
  = Rejected StrictFilter.notAFunction.
Proof.
  intros Hp Hinh Hvideo Hng. rewrite strict_pipeline_settles.
  assert (Hunsafe : ¬ contextSafe sources) by (intros Hsafe; by apply (Hsafe p)).
  assert (Hthrow : ∃ e, StrictFilter.calculateScore video sources = Throws e).
  { destruct (StrictFilter.calculateScore video sources) as [st|e] eqn:Hc; [|eauto].
    exfalso. revert Hc. rewrite calculateScore_unfold by done. unfold laterRules.
    destruct (StrictFilter.scoreContext _ _ _) as [st'|e] eqn:Hctx; [|done].
    intros _. revert Hctx. unfold StrictFilter.scoreContext.
    assert (Hc : ∀ pref st0, pref = Some p → ∀ r,
              StrictFilter.checkContext video pref st0 ≠ Returns r).
    { intros pref st0 -> r Hr.
      assert (Ht : StrictFilter.checkContext video (Some p) st0
                   = Throws StrictFilter.notAFunction) by by apply checkContext_throws.
      congruence. }
    unfold contextPreferences in Hp.
    destruct (StrictFilter.checkContext video (StrictFilter.prefDepth sources) _)
      as [s1|] eqn:E1; [|done]; cbn [andThen].
    destruct (StrictFilter.checkContext video (StrictFilter.prefVocal sources) _)
      as [s2|] eqn:E2; [|done]; cbn [andThen].
    destruct (StrictFilter.checkContext video (StrictFilter.prefLive sources) _)
      as [s3|] eqn:E3; [|done]; cbn [andThen].
    destruct (StrictFilter.checkContext video (StrictFilter.prefCommunity sources) _)
      as [s4|] eqn:E4; [|done]; cbn [andThen].
    destruct (StrictFilter.checkContext video (StrictFilter.prefInfoEnt sources) _)
      as [s5|] eqn:E5; [|done]; cbn [andThen].
    intros E6.
    repeat (apply elem_of_cons in Hp as [Hp|Hp];
            [symmetry in Hp; by eapply Hc|]).
    by apply elem_of_nil in Hp. }
  destruct Hthrow as [e Hthrow].
  unfold StrictFilter.rank.
  destruct (scoreAll_throws sources _ video e Hvideo Hthrow) as [e' He'].
  rewrite He'. cbn [andThen settle].
  apply scoreAll_error in He' as (thrower & _ & He').
  by apply calculateScore_error in He' as [-> _].
Qed.

(** The fallback pipeline returns a list whatever the recommended feed
    does. *)
Lemma legacy_pipeline_never_rejects (api : Api DualPool.VideoObject) g :
  ∃ out, (DualPool.getLegacyRecommendations api g).1 = Fulfilled out.
Proof.
  unfold DualPool.getLegacyRecommendations.
  destruct (getRecommendedVideos api) as [res|e]; [|simpl; eauto].
  unfold mbind, rand_bind, mret, rand_ret.
  destruct (shuffleArray (videos res) g). simpl. eauto.
Qed.

(** When the recommended feed answers, the fallback pipeline returns a
    permutation of it. *)
Lemma legacy_pipeline_shuffles (api : Api DualPool.VideoObject) g res :
  getRecommendedVideos api = Fulfilled res →
  ∃ out, (DualPool.getLegacyRecommendations api g).1 = Fulfilled out ∧ out ≡ₚ videos res.
Proof.
  intros Hres. unfold DualPool.getLegacyRecommendations. rewrite Hres.
  unfold mbind, rand_bind, mret, rand_ret.
  pose proof (shuffleArray_Permutation (videos res) g) as Hperm.
  destruct (shuffleArray (videos res) g) as [shuffled g1]. simpl in *. eauto.
Qed.

Section Xrai.
Import DualPool.
Variable UserProfile : Type.
Variable buildUserProfile : list VideoObject → list string → list Channel → UserProfile.
Variable weightedKeywords : UserProfile → list string.
Variable rankVideos : list VideoObject → UserProfile → RankOptions → list VideoObject.
Variables (api : Api VideoObject) (sources : RecommendationSource).

Let userProfile : UserProfile :=
  buildUserProfile (watchHistory sources) (searchHistory sources) (subscribedChannels sources).
Let topKeywords : list string := topKeywordsOf UserProfile weightedKeywords sources userProfile.

Lemma discoveryRequests_fulfilled :
  Forall (λ p, ∃ a, p = Fulfilled a) (discoveryRequests api sources topKeywords).
Proof.
  unfold discoveryRequests. apply Forall_app. split.
  - destruct (0 <? _)%nat; [apply Forall_map_catch | constructor].
  - destruct (_ && _); [|constructor].
    constructor; [apply catch_fulfilled | constructor].
Qed.

Lemma comfortRequests_fulfilled g :
  Forall (λ p, ∃ a, p = Fulfilled a) (comfortRequests api sources g).1.
Proof.
  unfold comfortRequests, mbind, rand_bind, mret, rand_ret.
  destruct (0 <? length (watchHistory sources))%nat;
    [destruct (randomBelow _ g) as [k g1] | ];
    (destruct (0 <? length (subscribedChannels sources))%nat;
      [destruct (shuffleArray _ _) as [shuffled g2] | ]);
    simpl; rewrite ?app_nil_r;
    try destruct (watchHistory sources !! k);
    repeat first [ apply Forall_app; split | apply Forall_map_catch
                 | constructor | apply catch_fulfilled ].
Qed.

(** With every request wrapped, the weighted pipeline returns a list. *)
Lemma xrai_without_fallback_never_rejects g :
  fallbackRequests api sources topKeywords (discoveryRequests api sources topKeywords) = [] →
  ∃ out,
    (getXraiRecommendations UserProfile buildUserProfile weightedKeywords rankVideos
       api sources g).1 = Fulfilled out.
Proof.
  intros Hfb.
  unfold getXraiRecommendations, mbind, rand_bind, mret, rand_ret.
  fold userProfile. fold topKeywords. rewrite Hfb, app_nil_r.
  pose proof (comfortRequests_fulfilled g) as Hc.
  destruct (comfortRequests api sources g) as [comfortPromises g1]. simpl in *.
  destruct (promise_all_fulfilled _ discoveryRequests_fulfilled) as [d ->].
  destruct (promise_all_fulfilled _ Hc) as [c ->].
  simpl. eauto.
Qed.

(** The request of the fallback has no [catch]: when it is issued and
    fails, the pipeline fails with it. *)
Lemma xrai_fallback_failure_propagates g e :
  watchHistory sources = [] → subscribedChannels sources = [] →
  topKeywords = [] → page sources ≠ 1%nat →
  getRecommendedVideos api = Rejected e →
  (getXraiRecommendations UserProfile buildUserProfile weightedKeywords rankVideos
     api sources g).1 = Rejected e.
Proof.
  intros Hw Hs Hk Hp He.
  unfold getXraiRecommendations, mbind, rand_bind, mret, rand_ret.
  fold userProfile. fold topKeywords.
  unfold comfortRequests, discoveryRequests, fallbackRequests, mbind, rand_bind, mret, rand_ret.
  rewrite Hw, Hs, Hk, He. simpl.
  destruct (Nat.eqb_spec (page sources) 1); [done|]. done.
Qed.
End Xrai.
End ErrorHandling.

(** C6, where the code departs from it: for a user without history,
    subscriptions or keywords on the second page, [getXraiRecommendations]
    issues the recommended-feed request without a [catch], and the failure
    of that one request is the outcome of the whole call. *)
Theorem xrai_new_user_feed_failure_reaches_caller :
  (DualPool.getXraiRecommendations unit (λ _ _ _, tt) (λ _, []) (λ l _ _, l)
     feedDown newUserSecondPage zeroDraws).1
  = Rejected "network error".
Proof. reflexivity. Qed.

(** * Concrete instances *)

Example mix_five_videos :
  map DualPool.vid (DualPool.mixFeeds poolA poolB (DualPool.belowRatio (65 # 100)))
  = ["a1"; "a2"; "b1"; "a3"; "b2"].
Proof. vm_compute. reflexivity. Qed.

Example mix_overlapping_pools :
  map DualPool.vid (DualPool.mixFeeds poolA poolB_overlapping (DualPool.belowRatio (65 # 100)))
  = ["a1"; "a2"; "b2"; "a3"].
Proof. vm_compute. reflexivity. Qed.

Example easy_cooking_scores_genre :
  StrictFilter.calculateScore (H := asciiFolding) easyCooking cookingFan
  = Returns (40, ["Genre Match: cooking"]).
Proof. vm_compute. reflexivity. Qed.

Example medium_preference_300_seconds :
  StrictFilter.calculateScore (H := asciiFolding) easyCooking mediumAndNew
  = Returns (220, ["Duration Match (Priority)"; "Fresh"]).
Proof. vm_compute. reflexivity. Qed.

Example medium_preference_50_seconds :
  StrictFilter.calculateScore (H := asciiFolding) fiveMinutesAgo mediumAndNew
  = Returns (-500, ["Duration Mismatch (Penalty)"]).
Proof. vm_compute. reflexivity. Qed.

(** A depth preference that names an inherited property: the scorer
    throws on a video that the NG filter lets through, and returns the
    NG sentinel on one that it stops. *)
Example constructor_preference_throws :
  StrictFilter.calculateScore (H := asciiFolding) easyCooking constructorFan
  = Throws StrictFilter.notAFunction
  ∧ StrictFilter.calculateScore (H := asciiFolding) violentCooking constructorFan
    = Returns (-10000, ["NG Keyword: violence"]).
Proof. vm_compute. done. Qed.

(** The later copy would pass the filters on its own, and is dropped with
    the first one. *)
Example later_copy_dropped_with_first :
  Shuffling.rejected (H := asciiFolding) noViolence laterCopy = false
  ∧ Shuffling.filterCandidates (H := asciiFolding) noViolence [laterCopy] = [laterCopy]
  ∧ Shuffling.filterCandidates (H := asciiFolding) noViolence [firstCopy; laterCopy] = [].
Proof. vm_compute. done. Qed.

(** C9, where the code departs from it: with the freshness preference
    ['new'] and no other preference, an upload of 5 minutes ago or of 2
    days ago, described in English, earns nothing, while the same in
    Japanese, and an upload of 3 hours ago in either language, earn +20
    and the reason [Fresh]. *)
Theorem freshness_english_minutes_and_days_earn_nothing :
  StrictFilter.calculateScore (H := asciiFolding) (uploaded "5 minutes ago") wantsNew
  = Returns (0, [])
  ∧ StrictFilter.calculateScore (H := asciiFolding) (uploaded "2 days ago") wantsNew
    = Returns (0, [])
  ∧ StrictFilter.calculateScore (H := asciiFolding) (uploaded "3 hours ago") wantsNew
    = Returns (20, ["Fresh"])
  ∧ StrictFilter.calculateScore (H := asciiFolding) (uploaded "5 分前") wantsNew
    = Returns (20, ["Fresh"])
  ∧ StrictFilter.calculateScore (H := asciiFolding) (uploaded "3 時間前") wantsNew
    = Returns (20, ["Fresh"])
  ∧ StrictFilter.calculateScore (H := asciiFolding) (uploaded "2 日前") wantsNew
    = Returns (20, ["Fresh"]).
Proof. vm_compute. done. Qed.


Lemma ng_short_circuit_witness :
  StrictFilter.ngKeywords cookingFan = Some ["violence"]
  ∧ includes (ascii_toLowerCase (channelName firstCopy)) "violence" = true
  ∧ StrictFilter.calculateScore (H := asciiFolding) firstCopy cookingFan
    = Returns (-10000, ["NG Keyword: violence"]).
Proof.
  split; [reflexivity|]. split; [reflexivity|].
  destruct (ng_short_circuit (H := asciiFolding) firstCopy cookingFan ["violence"] eq_refl)
    as (ng & before & after & Heq & _ & _ & Hcalc & _).
  { exists "violence". split; [constructor | reflexivity]. }
  destruct before as [|k before]; [|by destruct before].
  by injection Heq as <- _.
Defined.

Lemma duration_policy_witness :
  StrictFilter.preferredDurations mediumAndNew = Some ["medium"]
  ∧ StrictFilter.ngMatch (H := asciiFolding) easyCooking mediumAndNew = None
  ∧ inPreferredBucket ["medium"] (parseDurationToSeconds (isoDuration easyCooking))
  ∧ StrictFilter.calculateScore (H := asciiFolding) easyCooking
      (withDurations None mediumAndNew) = Returns (20, ["Fresh"])
  ∧ StrictFilter.calculateScore (H := asciiFolding) easyCooking mediumAndNew
    = Returns (20 + 200, ["Duration Match (Priority)"; "Fresh"]).
Proof.
  assert (Hb : inPreferredBucket ["medium"] (parseDurationToSeconds (isoDuration easyCooking))).
  { exists "medium". split; [reflexivity | constructor]. }
  split; [reflexivity|]. split; [reflexivity|]. split; [exact Hb|]. split; [reflexivity|].
  assert (Hne : ["medium"] ≠ []) by discriminate.
  exact (proj1 (duration_policy (H := asciiFolding) easyCooking mediumAndNew ["medium"]
                  eq_refl Hne eq_refl) Hb 20 ["Fresh"] eq_refl).
Defined.

Lemma mixFeeds_lossless_order_preserving_witness :
  NoDup (map DualPool.vid (poolA ++ poolB))
  ∧ interleaving poolA poolB (DualPool.mixFeeds poolA poolB (DualPool.belowRatio (65 # 100)))
  ∧ DualPool.mixFeeds poolA poolB (DualPool.belowRatio (65 # 100)) ≡ₚ poolA ++ poolB.
Proof.
  assert (Hnd : NoDup (map DualPool.vid (poolA ++ poolB))).
  { apply (bool_decide_unpack (NoDup (map DualPool.vid (poolA ++ poolB)))).
    vm_compute. exact I. }
  split; [exact Hnd|].
  destruct (mixFeeds_lossless_order_preserving poolA poolB (DualPool.belowRatio (65 # 100)) Hnd)
    as (Hint & Hperm & _).
  split; [exact Hint | exact Hperm].
Defined.

Lemma mixFeeds_distinct_ids_witness :
  NoDup (map DualPool.vid
           (DualPool.mixFeeds poolA poolB_overlapping (DualPool.belowRatio (65 # 100))))
  ∧ "a2" ∈ map DualPool.vid
             (DualPool.mixFeeds poolA poolB_overlapping (DualPool.belowRatio (65 # 100))).
Proof.
  destruct (mixFeeds_distinct_ids poolA poolB_overlapping (DualPool.belowRatio (65 # 100)))
    as (Hnd & Hcover & _).
  split; [exact Hnd|].
  apply (Hcover (object 6 "a2")). unfold poolA, poolB_overlapping.
  apply elem_of_app. right. constructor.
Defined.

Lemma aggregation_first_seen_witness :
  NoDup (map id (StrictFilter.deduplicate (collect (map Fulfilled fetchedLists))))
  ∧ "v2" ∈ map id (StrictFilter.deduplicate (collect (map Fulfilled fetchedLists))).
Proof.
  destruct (aggregation_first_seen fetchedLists) as (_ & _ & Hnd & Hcover & _).
  split; [exact Hnd|].
  apply (Hcover easyCooking). vm_compute. constructor. constructor.
Defined.

Lemma rank_threshold_sort_cap_witness :
  StrictFilter.scoreAll (H := asciiFolding) cookingFan [violentCooking; easyCooking; firstCopy]
  = Returns [StrictFilter.mkScored violentCooking (-10000) ["NG Keyword: violence"];
             StrictFilter.mkScored easyCooking 40 ["Genre Match: cooking"];
             StrictFilter.mkScored firstCopy (-10000) ["NG Keyword: violence"]]
  ∧ ∃ survivors,
      StrictFilter.rank (H := asciiFolding) cookingFan [violentCooking; easyCooking; firstCopy]
      = Returns (take 50 survivors)
      ∧ descending survivors
      ∧ (∀ v, v ∈ survivors → -100 < StrictFilter.score v).
Proof.
  split; [reflexivity|].
  destruct (rank_threshold_sort_cap (H := asciiFolding) cookingFan
              [violentCooking; easyCooking; firstCopy]
              [StrictFilter.mkScored violentCooking (-10000) ["NG Keyword: violence"];
               StrictFilter.mkScored easyCooking 40 ["Genre Match: cooking"];
               StrictFilter.mkScored firstCopy (-10000) ["NG Keyword: violence"]])
    as (survivors & _ & Hlink & _ & Hmem & _ & Hdesc & _).
  exists survivors. split; [exact (proj1 (Hlink eq_refl))|]. split; [exact Hdesc|].
  intros v Hv. exact (proj2 (proj1 (Hmem v) Hv)).
Defined.

Lemma first_copy_rejected_drops_id_witness :
  Shuffling.rejected (H := asciiFolding) noViolence firstCopy = true
  ∧ ∀ w, w ∈ Shuffling.filterCandidates (H := asciiFolding) noViolence [firstCopy; laterCopy] →
         id w ≠ "x1".
Proof.
  split; [reflexivity|].
  assert (Hfirst : id firstCopy ∉ map id []) by apply not_elem_of_nil.
  exact (proj1 (first_copy_rejected_drops_id (H := asciiFolding) noViolence
                  [firstCopy; laterCopy] [] [laterCopy] firstCopy eq_refl Hfirst eq_refl)).
Defined.

(** * Further properties *)

(** ** The shuffle and the chunks *)

(** X1: [shuffleArray] returns a permutation of its argument, of the same
    length, whatever the draws of [Math.random] are. *)
Theorem shuffleArray_permutes {A : Type} (array : list A) (g : nat → unit_draw) :
  (shuffleArray array g).1 ≡ₚ array
  ∧ length (shuffleArray array g).1 = length array.
Proof.
  pose proof (shuffle_loop_Permutation (length array - 1) array g) as Hperm.
  split; [exact Hperm|]. by rewrite Hperm.
Qed.

Section Chunks.
Import DualPool.
Context {A : Type}.

Lemma chunk_loop_concat (size : nat) : (0 < size)%nat →
  ∀ steps (array : list A), (length array ≤ steps)%nat →
    concat (chunk_loop steps array size) = array.
Proof.
  intros Hsize. induction steps as [|steps IH]; intros array Hlen.
  - destruct array; [done | simpl in Hlen; lia].
  - destruct array as [|x array]; [done|].
    cbn [chunk_loop concat]. rewrite IH; [by rewrite take_drop|].
    rewrite length_drop. simpl in *. lia.
Qed.

Lemma chunk_loop_sizes (size : nat) : (0 < size)%nat →
  ∀ steps (array : list A),
    Forall (λ chunk, (0 < length chunk ≤ size)%nat) (chunk_loop steps array size).
Proof.
  intros Hsize. induction steps as [|steps IH]; intros array; [constructor|].
  destruct array as [|x array]; [constructor|].
  cbn [chunk_loop]. constructor; [|apply IH].
  rewrite length_take. simpl. lia.
Qed.

Lemma chunkCount_small (len size : nat) :
  (0 < len ≤ size)%nat → chunkCount len size = 1%nat.
Proof.
  intros Hlen. unfold chunkCount.
  symmetry. apply Nat.div_unique with (r := (len - 1)%nat); lia.
Qed.

Lemma chunkCount_step (len size : nat) :
  (0 < size < len)%nat → chunkCount len size = S (chunkCount (len - size) size).
Proof.
  intros Hlen. unfold chunkCount.
  replace (len + size - 1)%nat with ((len - size + size - 1) + 1 * size)%nat by lia.
  rewrite Nat.div_add by lia. lia.
Qed.

Lemma chunk_loop_count (size : nat) : (0 < size)%nat →
  ∀ steps (array : list A), (length array ≤ steps)%nat →
    length (chunk_loop steps array size) = chunkCount (length array) size.
Proof.
  intros Hsize. induction steps as [|steps IH]; intros array Hlen.
  - destruct array; [|simpl in Hlen; lia].
    cbn [chunk_loop length]. unfold chunkCount. symmetry. apply Nat.div_small. lia.
  - destruct array as [|x array].
    { cbn [chunk_loop length]. unfold chunkCount. symmetry. apply Nat.div_small. lia. }
    cbn [chunk_loop]. change (length (?c :: ?l)) with (S (length l)) at 1.
    rewrite IH by (rewrite length_drop; simpl in *; lia).
    rewrite length_drop.
    set (n := length (x :: array)) in *.
    destruct (decide (n ≤ size)%nat) as [Hle|Hgt].
    + rewrite (chunkCount_small n) by (unfold n in *; simpl in *; lia).
      replace (n - size)%nat with 0%nat by lia.
      unfold chunkCount. f_equal. apply Nat.div_small. lia.
    + by rewrite (chunkCount_step n) by lia.
Qed.

(** X2: for a positive size, the chunks of [chunkArray], put one after the
    other, give the array back; no chunk is empty or longer than the
    size; and their number is the length divided by the size, rounded
    up. *)
Theorem chunkArray_partition (array : list A) (size : nat) :
  (0 < size)%nat →
  concat (DualPool.chunkArray array size) = array
  ∧ Forall (λ chunk, (0 < length chunk ≤ size)%nat) (DualPool.chunkArray array size)
  ∧ length (DualPool.chunkArray array size) = chunkCount (length array) size.
Proof.
  intros Hsize. unfold DualPool.chunkArray. split; [|split].
  - by apply chunk_loop_concat.
  - by apply chunk_loop_sizes.
  - by apply chunk_loop_count.
Qed.
End Chunks.

(** ** Deduplication through a [Map] *)

Section MapDedup.
Import DualPool.

Lemma map_set_keys {A : Type} (k : string) (v : A) (m : list (string * A)) :
  map fst (map_set k v m)
  = if decide (k ∈ map fst m) then map fst m else map fst m ++ [k].
Proof.
  induction m as [|[k' v'] m IH]; cbn [map_set map fst].
  - destruct (decide (k ∈ [])) as [Hin|_]; [by apply elem_of_nil in Hin | done].
  - destruct (String.eqb_spec k' k) as [->|Hne]; cbn [map fst].
    + destruct (decide (k ∈ k :: map fst m)) as [_|Hout]; [done|].
      exfalso. apply Hout. by left.
    + rewrite IH. destruct (decide (k ∈ map fst m)) as [Hin|Hout];
        destruct (decide (k ∈ k' :: map fst m)) as [Hin'|Hout']; try done.
      * exfalso. apply Hout'. by right.
      * apply elem_of_cons in Hin' as [?|?]; [congruence | done].
Qed.

Lemma map_set_elem_of {A : Type} (k : string) (v : A) (m : list (string * A)) :
  NoDup (map fst m) →
  ∀ k' v', (k', v') ∈ map_set k v m ↔ (k' = k ∧ v' = v) ∨ (k' ≠ k ∧ (k', v') ∈ m).
Proof.
  induction m as [|[k1 v1] m IH]; simpl; intros Hnd k' v'.
  - rewrite list_elem_of_singleton. split.
    + intros [= -> ->]. by left.
    + intros [[-> ->]|[_ ?%elem_of_nil]]; done.
  - apply NoDup_cons in Hnd as [Hk1 Hnd].
    destruct (String.eqb_spec k1 k) as [->|Hne].
    + rewrite !elem_of_cons. split.
      * intros [[= -> ->]|Hin]; [by left|]. right. split; [|by right].
        intros ->. apply Hk1. by apply (list_elem_of_fmap_2 fst) in Hin.
      * intros [[-> ->]|[Hne [[= ? ?]|Hin]]]; [by left | done | by right].
    + rewrite !elem_of_cons, (IH Hnd). split.
      * intros [[= -> ->]|[[-> ->]|[? ?]]]; [right; split; [done|by left] | by left |].
        right. split; [done | by right].
      * intros [[-> ->]|[? [[= -> ->]|?]]]; [right; by left | by left |].
        right. right. done.
Qed.

Lemma decide_iff_nil_or {A : Type} (P Q : Prop) `{Decision P, Decision Q} (x : A) :
  (P ↔ Q) → (if decide P then [] else [x]) = (if decide Q then [] else [x]).
Proof. intros HPQ. destruct (decide P), (decide Q); tauto. Qed.

Lemma firstOccurrences_snoc {A : Type} (key : A → string) (l : list A) (x : A) : ∀ seen,
  firstOccurrences key seen (l ++ [x])
  = firstOccurrences key seen l
    ++ (if decide (key x ∈ seen ∪ list_to_set (map key l)) then [] else [x]).
Proof.
  induction l as [|y l IH]; intros seen; cbn [app firstOccurrences map].
  - destruct (decide (key x ∈ seen)) as [Hin|Hout];
      destruct (decide (key x ∈ seen ∪ list_to_set [])) as [Hin'|Hout'];
      try done; exfalso; set_solver.
  - destruct (decide (key y ∈ seen)) as [Hin|Hout]; rewrite IH; cbn [app].
    + f_equal. apply decide_iff_nil_or. rewrite list_to_set_cons.
      destruct (decide (key x = key y)) as [Heq|Hne]; [rewrite Heq|]; set_solver.
    + f_equal. f_equal. apply decide_iff_nil_or. rewrite list_to_set_cons. set_solver.
Qed.

Lemma firstOccurrences_keys {A : Type} (key : A → string) (l : list A) : ∀ seen,
  firstOccurrences (λ s, s) seen (map key l) = map key (firstOccurrences key seen l).
Proof.
  induction l as [|y l IH]; intros seen; simpl; [done|].
  destruct (decide (key y ∈ seen)); simpl; by rewrite IH.
Qed.

Lemma lastWithId_snoc (raw : list VideoObject) (x v : VideoObject) :
  lastWithId (raw ++ [x]) v ↔ v = x ∨ (lastWithId raw v ∧ vid v ≠ vid x).
Proof.
  unfold lastWithId. split.
  - intros (pre & post & Heq & Hlast).
    destruct (decide (post = [])) as [->|Hpost].
    + left. apply app_inj_tail in Heq as [_ Heq]. done.
    + right. destruct (exists_last Hpost) as (post' & y & ->).
      rewrite app_comm_cons, app_assoc in Heq.
      apply app_inj_tail in Heq as [-> ->].
      rewrite map_app, not_elem_of_app in Hlast. destruct Hlast as [Hp Hx].
      split; [by exists pre, post'|].
      simpl in Hx. rewrite not_elem_of_cons in Hx. naive_solver.
  - intros [->|[(pre & post & -> & Hlast) Hne]].
    + exists raw, []. split; [done|]. simpl. apply not_elem_of_nil.
    + exists pre, (post ++ [x]). split; [by rewrite <- app_assoc|].
      rewrite map_app, not_elem_of_app. split; [done|].
      simpl. rewrite not_elem_of_cons. split; [done | apply not_elem_of_nil].
Qed.

(** The entries of the map after the insertions of [raw]. *)
Lemma map_entries_invariant (raw : list VideoObject) :
  let m := foldl (λ m v, map_set (vid v) v m) [] raw in
  NoDup (map fst m)
  ∧ (∀ k v, (k, v) ∈ m ↔ k = vid v ∧ lastWithId raw v)
  ∧ map fst m = map vid (firstOccurrences vid ∅ raw).
Proof.
  induction raw as [|x raw IH] using rev_ind; simpl.
  - split; [constructor|]. split; [|done].
    intros k v. split; [by intros ?%elem_of_nil|].
    intros [_ (pre & post & Heq & _)]. by destruct pre.
  - rewrite foldl_app. simpl.
    destruct IH as (Hnd & Hmem & Hkeys).
    set (m := foldl (λ m v, map_set (vid v) v m) [] raw) in *.
    assert (Hin : vid x ∈ map fst m ↔ vid x ∈ (∅ : gset string) ∪ list_to_set (map vid raw)).
    { rewrite Hkeys. split.
      - intros (w & Hw & Hin)%list_elem_of_fmap. rewrite Hw.
        pose proof (firstOccurrences_sublist vid raw ∅) as Hsub.
        apply (elem_of_sublist _ _ _ Hin) in Hsub.
        apply (list_elem_of_fmap_2 vid) in Hsub. set_solver.
      - intros Hx. assert (Hx' : vid x ∈ map vid raw) by set_solver.
        apply list_elem_of_fmap in Hx' as (w & Hw & Hin). rewrite Hw.
        apply firstOccurrences_covers; [done | set_solver]. }
    split; [|split].
    + rewrite map_set_keys. destruct (decide (vid x ∈ map fst m)) as [|Hout]; [done|].
      apply NoDup_app. split; [done|]. split; [|apply NoDup_singleton].
      intros k Hk ->%list_elem_of_singleton. done.
    + intros k v. rewrite (map_set_elem_of _ _ _ Hnd), Hmem, lastWithId_snoc.
      split.
      * intros [[-> ->]|[Hne [-> Hlast]]]; [split; [done | by left]|].
        split; [done|]. right. split; [done | congruence].
      * intros [-> [->|[Hlast Hne]]]; [by left|].
        right. split; [congruence | done].
    + rewrite map_set_keys, firstOccurrences_snoc, map_app, <- Hkeys.
      destruct (decide (vid x ∈ map fst m)) as [Hk|Hk].
      * destruct (decide _) as [_|Hno]; [by rewrite app_nil_r|].
        exfalso. by apply Hno, Hin.
      * destruct (decide _) as [Hyes|_]; [|done].
        exfalso. by apply Hk, Hin.
Qed.

(** X3: the per-track deduplication through a [Map] keeps one video per
    id; the kept video is the last one of the input with that id, and it
    stands where the first one with that id stood: the ids come out in
    the order in which [new Set] would give them. *)
Theorem uniqueById_last_value_first_place (raw : list VideoObject) :
  NoDup (map vid (uniqueById raw))
  ∧ (∀ v, v ∈ uniqueById raw ↔ lastWithId raw v)
  ∧ map vid (uniqueById raw) = uniqueStrings (map vid raw).
Proof.
  destruct (map_entries_invariant raw) as (Hnd & Hmem & Hkeys).
  unfold uniqueById.
  set (m := foldl (λ m v, map_set (vid v) v m) [] raw) in *.
  assert (Hids : map vid (map snd m) = map fst m).
  { rewrite map_map. apply map_ext_in. intros [k v] Hin. simpl.
    apply list_elem_of_In in Hin. apply Hmem in Hin as [-> _]. done. }
  rewrite Hids. split; [done|]. split.
  - intros v. split.
    + intros ([k w] & -> & Hin)%list_elem_of_fmap. simpl. by apply Hmem in Hin as [_ ?].
    + intros Hlast. apply list_elem_of_fmap. exists (vid v, v). split; [done|].
      by apply Hmem.
  - rewrite Hkeys. unfold uniqueStrings. rewrite foldl_keep_unseen. simpl.
    by rewrite firstOccurrences_keys.
Qed.
End MapDedup.

(** ** The pool mixer at its edges *)

Section MixerEdges.
Import DualPool.

Lemma interleaving_nil_l {A : Type} (ys zs : list A) : interleaving [] ys zs → zs = ys.
Proof.
  revert zs. induction ys as [|y ys IH]; intros zs Hint; inversion Hint; subst; [done|].
  f_equal. by apply IH.
Qed.

Lemma interleaving_nil_r {A : Type} (xs zs : list A) : interleaving xs [] zs → zs = xs.
Proof.
  revert zs. induction xs as [|x xs IH]; intros zs Hint; inversion Hint; subst; [done|].
  f_equal. by apply IH.
Qed.

(** X4: with an empty pool the mixer returns the other pool, without the
    later copies of an id; a single pool of pairwise-distinct ids comes
    back as it is, for every ratio test. *)
Theorem mixFeeds_single_pool (pool : list VideoObject) (below : ratio_test) :
  mixFeeds [] pool below = firstOccurrences vid ∅ pool
  ∧ mixFeeds pool [] below = firstOccurrences vid ∅ pool
  ∧ (NoDup (map vid pool) →
       mixFeeds [] pool below = pool ∧ mixFeeds pool [] below = pool).
Proof.
  assert (Hl : mixFeeds [] pool below = firstOccurrences vid ∅ pool).
  { destruct (mixFeeds_schedule [] pool below) as (taken & Hint & ->).
    by rewrite (interleaving_nil_l _ _ Hint). }
  assert (Hr : mixFeeds pool [] below = firstOccurrences vid ∅ pool).
  { destruct (mixFeeds_schedule pool [] below) as (taken & Hint & ->).
    by rewrite (interleaving_nil_r _ _ Hint). }
  split; [done|]. split; [done|].
  intros Hnd. rewrite Hl, Hr.
  rewrite firstOccurrences_distinct; [done | done | set_solver].
Qed.

Variables (discoveryList comfortList : list VideoObject).

Lemma mixStep_takes_A (below : ratio_test) (st : MixState) (a : VideoObject) :
  discoveryList !! idxA st = Some a →
  ((idxB st < length comfortList)%nat →
     below (length (List.filter (includesObject discoveryList) (result st)))
           (length (result st) + 1)%nat = true) →
  mixStep discoveryList comfortList below st
  = {| idxA := S (idxA st); idxB := idxB st;
       result := (keep_unseen vid (seenIds st, result st) a).2;
       seenIds := (keep_unseen vid (seenIds st, result st) a).1 |}.
Proof.
  intros Ha Htest. unfold mixStep.
  assert (EA : (idxA st <? length discoveryList)%nat = true).
  { apply Nat.ltb_lt. by eapply lookup_lt_Some. }
  rewrite EA. destruct (idxB st <? length comfortList)%nat eqn:EB; simpl.
  - apply Nat.ltb_lt in EB. rewrite (Htest EB). simpl. rewrite Ha.
    by destruct (keep_unseen _ _ _).
  - rewrite Ha. by destruct (keep_unseen _ _ _).
Qed.

Lemma mixStep_takes_B (below : ratio_test) (st : MixState) (b : VideoObject) :
  comfortList !! idxB st = Some b →
  ((idxA st < length discoveryList)%nat →
     below (length (List.filter (includesObject discoveryList) (result st)))
           (length (result st) + 1)%nat = false) →
  mixStep discoveryList comfortList below st
  = {| idxA := idxA st; idxB := S (idxB st);
       result := (keep_unseen vid (seenIds st, result st) b).2;
       seenIds := (keep_unseen vid (seenIds st, result st) b).1 |}.
Proof.
  intros Hb Htest. unfold mixStep.
  assert (EB : (idxB st <? length comfortList)%nat = true).
  { apply Nat.ltb_lt. by eapply lookup_lt_Some. }
  rewrite EB. destruct (idxA st <? length discoveryList)%nat eqn:EA; simpl.
  - apply Nat.ltb_lt in EA. rewrite (Htest EA). simpl. rewrite Hb.
    by destruct (keep_unseen _ _ _).
  - rewrite Hb. by destruct (keep_unseen _ _ _).
Qed.

Lemma mixLoop_S (below : ratio_test) (k : nat) :
  mixLoop discoveryList comfortList below (S k)
  = mixStep discoveryList comfortList below (mixLoop discoveryList comfortList below k).
Proof. reflexivity. Qed.

(** When the test always sends the mixer to the discovery list, the loop
    reads the discovery list and then the comfort list. *)
Lemma mixLoop_discovery_first (below : ratio_test) (k : nat) :
  (∀ a t, (a < t)%nat → below a t = true) →
  (k ≤ length discoveryList + length comfortList)%nat →
  idxA (mixLoop discoveryList comfortList below k) = (k `min` length discoveryList)%nat
  ∧ idxB (mixLoop discoveryList comfortList below k) = (k - length discoveryList)%nat
  ∧ (seenIds (mixLoop discoveryList comfortList below k),
     result (mixLoop discoveryList comfortList below k))
    = foldl (keep_unseen vid) (∅, []) (take k (discoveryList ++ comfortList)).
Proof.
  intros Htest. induction k as [|k IH]; intros Hk.
  - split; [cbn; lia|]. split; [cbn; lia|]. done.
  - destruct IH as (HA & HB & Hst); [lia|].
    rewrite mixLoop_S.
    set (st := mixLoop discoveryList comfortList below k) in *.
    destruct (lookup_lt_is_Some_2 (discoveryList ++ comfortList) k) as [x Hx].
    { rewrite length_app. lia. }
    rewrite (take_S_r _ _ _ Hx), foldl_app, <- Hst. cbn [foldl].
    destruct (decide (k < length discoveryList)%nat) as [Hlt|Hge].
    + rewrite lookup_app_l in Hx by done.
      rewrite (mixStep_takes_A below st x).
      * cbn [idxA idxB result seenIds]. rewrite HA, HB.
        split; [lia|]. split; [lia|]. by destruct (keep_unseen _ _ _).
      * rewrite HA. by rewrite Nat.min_l by lia.
      * intros _. apply Htest.
        pose proof (filter_length_le (includesObject discoveryList) (result st)). lia.
    + rewrite lookup_app_r in Hx by lia.
      rewrite (mixStep_takes_B below st x).
      * cbn [idxA idxB result seenIds]. rewrite HA, HB.
        split; [lia|]. split; [lia|]. by destruct (keep_unseen _ _ _).
      * rewrite HB. done.
      * intros Hcontra. lia.
Qed.

(** When the test never sends the mixer to the discovery list, the loop
    reads the comfort list and then the discovery list. *)
Lemma mixLoop_comfort_first (below : ratio_test) (k : nat) :
  (∀ a t, (0 < t)%nat → below a t = false) →
  (k ≤ length discoveryList + length comfortList)%nat →
  idxB (mixLoop discoveryList comfortList below k) = (k `min` length comfortList)%nat
  ∧ idxA (mixLoop discoveryList comfortList below k) = (k - length comfortList)%nat
  ∧ (seenIds (mixLoop discoveryList comfortList below k),
     result (mixLoop discoveryList comfortList below k))
    = foldl (keep_unseen vid) (∅, []) (take k (comfortList ++ discoveryList)).
Proof.
  intros Htest. induction k as [|k IH]; intros Hk.
  - split; [cbn; lia|]. split; [cbn; lia|]. done.
  - destruct IH as (HB & HA & Hst); [lia|].
    rewrite mixLoop_S.
    set (st := mixLoop discoveryList comfortList below k) in *.
    destruct (lookup_lt_is_Some_2 (comfortList ++ discoveryList) k) as [x Hx].
    { rewrite length_app. lia. }
    rewrite (take_S_r _ _ _ Hx), foldl_app, <- Hst. cbn [foldl].
    destruct (decide (k < length comfortList)%nat) as [Hlt|Hge].
    + rewrite lookup_app_l in Hx by done.
      rewrite (mixStep_takes_B below st x).
      * cbn [idxA idxB result seenIds]. rewrite HA, HB.
        split; [lia|]. split; [lia|]. by destruct (keep_unseen _ _ _).
      * rewrite HB. by rewrite Nat.min_l by lia.
      * intros _. apply Htest. lia.
    + rewrite lookup_app_r in Hx by lia.
      rewrite (mixStep_takes_A below st x).
      * cbn [idxA idxB result seenIds]. rewrite HA, HB.
        split; [lia|]. split; [lia|]. by destruct (keep_unseen _ _ _).
      * rewrite HA. done.
      * intros Hcontra. lia.
Qed.

Lemma belowRatio_at_least_one (r : Q) (a t : nat) :
  (1 <= r)%Q → (a < t)%nat → belowRatio r a t = true.
Proof.
  intros Hr Hat. unfold belowRatio.
  destruct (Qlt_le_dec _ _) as [_|Hle]; [done|]. exfalso.
  assert (Ht : (0 < inject_Z (Z.of_nat t))%Q) by (rewrite <- (Zlt_Qlt 0); lia).
  assert (Hlt : (inject_Z (Z.of_nat a) / inject_Z (Z.of_nat t) < 1)%Q).
  { apply Qlt_shift_div_r; [done|]. rewrite Qmult_1_l. rewrite <- Zlt_Qlt. lia. }
  apply (Qlt_irrefl 1). eapply Qle_lt_trans; [|exact Hlt].
  eapply Qle_trans; [exact Hr | exact Hle].
Qed.

Lemma belowRatio_at_most_zero (r : Q) (a t : nat) :
  (r <= 0)%Q → (0 < t)%nat → belowRatio r a t = false.
Proof.
  intros Hr Ht0. unfold belowRatio.
  destruct (Qlt_le_dec _ _) as [Hlt|_]; [|done]. exfalso.
  assert (Ht : (0 < inject_Z (Z.of_nat t))%Q) by (rewrite <- (Zlt_Qlt 0); lia).
  assert (Hge : (0 <= inject_Z (Z.of_nat a) / inject_Z (Z.of_nat t))%Q).
  { apply Qle_shift_div_l; [done|]. rewrite Qmult_0_l. rewrite <- (Zle_Qle 0). lia. }
  apply (Qlt_irrefl 0). eapply Qle_lt_trans; [exact Hge|].
  eapply Qlt_le_trans; [exact Hlt | exact Hr].
Qed.

(** X5: a ratio of 1 or more makes the mixer read the whole discovery
    list before the comfort list, and a ratio of 0 or less the whole
    comfort list before the discovery list; in both cases the result is
    that sequence without the later copies of an id. *)
Theorem mixFeeds_extreme_ratios (r : Q) :
  ((1 <= r)%Q →
     mixFeeds discoveryList comfortList (belowRatio r)
     = firstOccurrences vid ∅ (discoveryList ++ comfortList))
  ∧ ((r <= 0)%Q →
     mixFeeds discoveryList comfortList (belowRatio r)
     = firstOccurrences vid ∅ (comfortList ++ discoveryList)).
Proof.
  split; intros Hr; unfold mixFeeds.
  - destruct (mixLoop_discovery_first (belowRatio r)
                (length discoveryList + length comfortList)) as (_ & _ & Hst);
      [intros a t; by apply belowRatio_at_least_one | done |].
    assert (Hall : take (length discoveryList + length comfortList)
                     (discoveryList ++ comfortList) = discoveryList ++ comfortList).
    { apply take_ge. rewrite length_app. lia. }
    rewrite Hall, foldl_keep_unseen in Hst.
    injection Hst as _ Hres. exact Hres.
  - destruct (mixLoop_comfort_first (belowRatio r)
                (length discoveryList + length comfortList)) as (_ & _ & Hst);
      [intros a t; by apply belowRatio_at_most_zero | done |].
    assert (Hall : take (length discoveryList + length comfortList)
                     (comfortList ++ discoveryList) = comfortList ++ discoveryList).
    { apply take_ge. rewrite length_app. lia. }
    rewrite Hall, foldl_keep_unseen in Hst.
    injection Hst as _ Hres. exact Hres.
Qed.
End MixerEdges.

(** ** The weighted pipeline and the fallback *)

Section DualPoolPipeline.
Import DualPool.

Lemma mixFeeds_NoDup_ids (discoveryList comfortList : list VideoObject) (below : ratio_test) :
  NoDup (map vid (mixFeeds discoveryList comfortList below)).
Proof.
  destruct (mixFeeds_schedule discoveryList comfortList below) as (taken & _ & ->).
  apply firstOccurrences_NoDup.
Qed.

Variable UserProfile : Type.
Variable buildUserProfile : list VideoObject → list string → list Channel → UserProfile.
Variable weightedKeywords : UserProfile → list string.
Variable rankVideos : list VideoObject → UserProfile → RankOptions → list VideoObject.

(** X6: whatever the profile builder and the ranking pass do, a list
    returned by [getXraiRecommendations] has pairwise-distinct ids and at
    most 150 entries. *)
Theorem getXraiRecommendations_distinct_capped (api : Api VideoObject)
    (sources : RecommendationSource) (g : nat → unit_draw) (out : list VideoObject) :
  (getXraiRecommendations UserProfile buildUserProfile weightedKeywords rankVideos
     api sources g).1 = Fulfilled out →
  NoDup (map vid out) ∧ (length out ≤ 150)%nat.
Proof.
  unfold getXraiRecommendations, mbind, rand_bind, mret, rand_ret.
  destruct (comfortRequests api sources g) as [comfortPromises g1]. cbn [fst].
  destruct (promise_all [promise_all _; promise_all comfortPromises]) as [nested|e];
    cbn [await]; [|done].
  intros [= <-]. split.
  - rewrite fmap_take. eapply sublist_NoDup; [|apply sublist_take].
    apply mixFeeds_NoDup_ids.
  - rewrite length_take. lia.
Qed.

Lemma chunkCount_le_4 (n : nat) : (n ≤ 12)%nat → (chunkCount n 3 ≤ 4)%nat.
Proof.
  intros Hn. unfold chunkCount.
  assert (((n + 3 - 1) / 3 < 5)%nat); [|lia].
  apply Nat.Div0.div_lt_upper_bound. lia.
Qed.

(** X7: one call of [getXraiRecommendations] issues at most four requests
    for the discovery pool (the keyword searches of at most twelve
    keywords in chunks of three, or one trending search, or the fallback
    feed) and at most three for the comfort pool. *)
Theorem getXraiRecommendations_fan_out (api : Api VideoObject)
    (sources : RecommendationSource) (g : nat → unit_draw) :
  let userProfile :=
    buildUserProfile (watchHistory sources) (searchHistory sources) (subscribedChannels sources) in
  let topKeywords := topKeywordsOf UserProfile weightedKeywords sources userProfile in
  let discoveryPromises := discoveryRequests api sources topKeywords in
  (length topKeywords ≤ 12)%nat
  ∧ (length (discoveryPromises
             ++ fallbackRequests api sources topKeywords discoveryPromises) ≤ 4)%nat
  ∧ (length (comfortRequests api sources g).1 ≤ 3)%nat.
Proof.
  intros userProfile topKeywords discoveryPromises.
  assert (Htop : (length topKeywords ≤ 12)%nat).
  { unfold topKeywords, topKeywordsOf. rewrite length_take. lia. }
  split; [done|]. split.
  - rewrite length_app. unfold fallbackRequests.
    destruct (length discoveryPromises =? 0)%nat eqn:Hd.
    + apply Nat.eqb_eq in Hd. rewrite Hd.
      destruct (_ && _ && _ && true); simpl; lia.
    + rewrite andb_false_r. simpl.
      unfold discoveryPromises, discoveryRequests. rewrite length_app.
      destruct (0 <? length topKeywords)%nat eqn:Hk.
      * apply Nat.ltb_lt in Hk.
        replace (length topKeywords =? 0)%nat with false
          by (symmetry; apply Nat.eqb_neq; lia).
        simpl. rewrite length_map.
        pose proof (chunk_loop_count (A := string) 3 ltac:(lia)
                      (length topKeywords) topKeywords ltac:(lia)) as Hc.
        unfold chunkArray. rewrite Hc.
        pose proof (chunkCount_le_4 _ Htop). lia.
      * simpl. destruct (_ && _); simpl; lia.
  - unfold comfortRequests, mbind, rand_bind, mret, rand_ret.
    destruct (0 <? length (watchHistory sources))%nat;
      [destruct (randomBelow _ g) as [k g1] | ];
      (destruct (0 <? length (subscribedChannels sources))%nat;
        [destruct (shuffleArray _ _) as [shuffled g2] | ]);
      cbn [fst]; rewrite ?length_app, ?length_map, ?length_take;
      try destruct (watchHistory sources !! k); cbn [length]; lia.
Qed.
End DualPoolPipeline.

(** X8: [getLegacyRecommendations] returns a permutation of the
    recommended feed when the feed answers, and the empty list when it
    fails. *)
Theorem getLegacyRecommendations_outcome (api : Api DualPool.VideoObject) (g : nat → unit_draw) :
  match getRecommendedVideos api with
  | Fulfilled res =>
      ∃ out, (DualPool.getLegacyRecommendations api g).1 = Fulfilled out ∧ out ≡ₚ videos res
  | Rejected _ => (DualPool.getLegacyRecommendations api g).1 = Fulfilled []
  end.
Proof.
  unfold DualPool.getLegacyRecommendations.
  destruct (getRecommendedVideos api) as [res|e]; [|done].
  unfold mbind, rand_bind, mret, rand_ret.
  pose proof (shuffleArray_Permutation (videos res) g) as Hperm.
  destruct (shuffleArray (videos res) g) as [shuffled g1]. simpl in *. eauto.
Qed.

(** ** The range of the score *)

Section ScoreRange.
Import StrictFilter.
Context `{CaseFolding}.

Lemma rule_from (R : Z * list string → Z * list string) :
  (∀ d st, R (shift d st) = shift d (R st)) →
  ∀ st, R st = shift st (R (0, [])).
Proof.
  intros HR st. rewrite <- HR. f_equal. destruct st as [s rs]. unfold shift; simpl.
  f_equal; [lia | by rewrite app_nil_r].
Qed.

(** The points of the duration rule are what the rule adds to the score. *)
Lemma scoreDuration_points video source (st : Z * list string) :
  (scoreDuration video source st).1 = st.1 + durationPoints video source.
Proof.
  unfold scoreDuration, durationPoints.
  destruct (preferredDurations source) as [[|d ds]|]; cbn [fst]; try lia.
  destruct (durationMatch _ _); cbn [fst]; [lia|].
  destruct (0 <? _); cbn [fst]; lia.
Qed.

Lemma durationPoints_range video source :
  -500 <= durationPoints video source <= 200.
Proof.
  unfold durationPoints. destruct (preferredDurations source) as [[|d ds]|]; try lia.
  destruct (durationMatch _ _); [lia|]. destruct (0 <? _); lia.
Qed.

Lemma durationPoints_unset video source :
  default [] (preferredDurations source) = [] → durationPoints video source = 0.
Proof.
  unfold durationPoints. by destruct (preferredDurations source) as [[|d ds]|].
Qed.

Lemma scorePreferredChannel_bounds video source (st : Z * list string) :
  st.1 <= (scorePreferredChannel video source st).1 <= st.1 + 50.
Proof. unfold scorePreferredChannel. destruct (existsb _ _); cbn [fst]; lia. Qed.

Lemma scoreSubscribed_bounds video source (st : Z * list string) :
  st.1 <= (scoreSubscribed video source st).1 <= st.1 + 30.
Proof. unfold scoreSubscribed. destruct (existsb _ _); cbn [fst]; lia. Qed.

Lemma scoreGenres_bounds video source (st : Z * list string) :
  st.1 <= (scoreGenres video source st).1
       <= st.1 + 40 * Z.of_nat (length (preferredGenres source)).
Proof.
  unfold scoreGenres. revert st.
  induction (preferredGenres source) as [|g gs IH]; intros st; cbn [foldl length].
  - lia.
  - specialize (IH (scoreGenre video st g)). unfold scoreGenre in *.
    destruct (includes _ _); cbn [fst] in *; lia.
Qed.

Lemma checkContext_bounds video pref (st st' : Z * list string) :
  checkContext video pref st = Returns st' → st.1 <= st'.1 <= st.1 + 30.
Proof.
  intros [->|(p & _ & ->)]%checkContext_returns; cbn [fst]; lia.
Qed.

Lemma scoreContext_bounds video source (st st' : Z * list string) :
  scoreContext video source st = Returns st' → st.1 <= st'.1 <= st.1 + 180.
Proof.
  unfold scoreContext.
  destruct (checkContext video (prefDepth source) st) as [s1|] eqn:E1; [|done].
  cbn [andThen].
  destruct (checkContext video (prefVocal source) s1) as [s2|] eqn:E2; [|done].
  cbn [andThen].
  destruct (checkContext video (prefLive source) s2) as [s3|] eqn:E3; [|done].
  cbn [andThen].
  destruct (checkContext video (prefCommunity source) s3) as [s4|] eqn:E4; [|done].
  cbn [andThen].
  destruct (checkContext video (prefInfoEnt source) s4) as [s5|] eqn:E5; [|done].
  cbn [andThen]. intros E6.
  apply checkContext_bounds in E1, E2, E3, E4, E5, E6. lia.
Qed.

Lemma scoreFreshness_bounds video source (st : Z * list string) :
  st.1 <= (scoreFreshness video source st).1 <= st.1 + 20.
Proof.
  unfold scoreFreshness. destruct (preferredFreshness source); [|lia].
  destruct (_ && _); cbn [fst]; lia.
Qed.

(** Without an NG match, a score that the scorer returns is the points
    of the duration rule plus what the later rules add: nothing at
    least, and at most 50, 30, 40 for each preferred genre, 30 for each
    of the six context preferences, and 20. *)
Lemma calculateScore_bounds video source s reasons :
  ngMatch video source = None →
  calculateScore video source = Returns (s, reasons) →
  durationPoints video source <= s
    <= durationPoints video source + 280 + 40 * Z.of_nat (length (preferredGenres source)).
Proof.
  intros Hng. unfold calculateScore. rewrite Hng. unfold scoreBeforeFreshness.
  destruct (scoreContext _ _ _) as [st|e] eqn:Hctx; [|done].
  cbn [andThen]. intros [= Hret].
  apply scoreContext_bounds in Hctx.
  pose proof (scoreFreshness_bounds video source st) as Hf. rewrite Hret in Hf.
  cbn [fst] in Hf.
  pose proof (scoreGenres_bounds video source
                (scoreSubscribed video source
                   (scorePreferredChannel video source (scoreDuration video source (0, []))))).
  pose proof (scoreSubscribed_bounds video source
                (scorePreferredChannel video source (scoreDuration video source (0, [])))).
  pose proof (scorePreferredChannel_bounds video source (scoreDuration video source (0, []))).
  pose proof (scoreDuration_points video source (0, [])) as Hd. cbn [fst] in Hd.
  lia.
Qed.

Lemma calculateScore_nonneg video source s reasons :
  ngMatch video source = None →
  default [] (preferredDurations source) = [] →
  calculateScore video source = Returns (s, reasons) →
  0 <= s.
Proof.
  intros Hng Hunset Hret.
  pose proof (calculateScore_bounds video source s reasons Hng Hret) as Hb.
  rewrite (durationPoints_unset _ _ Hunset) in Hb. lia.
Qed.

(** X10: the scorer returns a score for every source none of whose
    context preferences is an inherited name; a score that it returns is
    -10000 on an NG match; otherwise it lies between -500 and 480 plus 40
    per preferred genre, and it is not negative when no preferred
    duration is set. *)
Theorem calculateScore_range (video : Video) (source : RecommendationSource) :
  (contextSafe source → ∃ s reasons, calculateScore video source = Returns (s, reasons))
  ∧ ∀ s reasons, calculateScore video source = Returns (s, reasons) →
      (ngMatch video source ≠ None → s = -10000)
      ∧ (ngMatch video source = None →
           -500 <= s <= 480 + 40 * Z.of_nat (length (preferredGenres source)))
      ∧ (ngMatch video source = None →
         default [] (preferredDurations source) = [] →
           0 <= s).
Proof.
  split; [apply calculateScore_safe|].
  intros s reasons Hret. split; [|split].
  - intros Hng. revert Hret. unfold calculateScore.
    destruct (ngMatch video source); [by intros [= <- _] | done].
  - intros Hng. pose proof (calculateScore_bounds video source s reasons Hng Hret).
    pose proof (durationPoints_range video source). lia.
  - intros Hng Hunset. by eapply calculateScore_nonneg.
Qed.

(** A state that a call of rule 6 returns holds the reasons that were
    there, and so do the states after rules 5 and 7. *)
Lemma scoreContext_keeps video source (st st' : Z * list string) r :
  scoreContext video source st = Returns st' → r ∈ st.2 → r ∈ st'.2.
Proof.
  intros Hctx Hr.
  assert (Hst : st = shift st (0, [])).
  { destruct st as [s rs]. unfold shift; simpl. f_equal; [lia | by rewrite app_nil_r]. }
  rewrite Hst, scoreContext_shift in Hctx.
  destruct (scoreContext video source (0, [])) as [x|]; [|done].
  injection Hctx as <-. cbn [shift snd]. apply elem_of_app. by left.
Qed.

Lemma scoreGenres_keeps video source (st : Z * list string) r :
  r ∈ st.2 → r ∈ (scoreGenres video source st).2.
Proof.
  intros Hr. rewrite (rule_from _ (scoreGenres_shift _ _)).
  cbn [shift snd]. apply elem_of_app. by left.
Qed.

Lemma scoreFreshness_keeps video source (st : Z * list string) r :
  r ∈ st.2 → r ∈ (scoreFreshness video source st).2.
Proof.
  intros Hr. rewrite (rule_from _ (scoreFreshness_shift _ _)).
  cbn [shift snd]. apply elem_of_app. by left.
Qed.

(** X14: a video taken from the feed of a subscribed channel carries the
    id of that channel, so the subscription rule fires for it: the
    reasons that the scorer returns for it hold [Subscribed Channel],
    unless they are the single reason of an NG match. *)
Theorem feed_video_earns_subscription (sources : RecommendationSource)
    (sub : Channel) (v : Video) (s : Z) (reasons : list string) :
  sub ∈ subscribedChannels sources →
  calculateScore (annotate sub v) sources = Returns (s, reasons) →
  (∃ ng, ng ∈ default [] (ngKeywords sources)
         ∧ s = -10000 ∧ reasons = ["NG Keyword: " +:+ ng])
  ∨ "Subscribed Channel" ∈ reasons.
Proof.
  intros Hsub. unfold calculateScore.
  destruct (ngMatch (annotate sub v) sources) as [ng|] eqn:Hng.
  - intros [= <- <-]. left. exists ng. split; [|done].
    unfold ngMatch in Hng. destruct (ngKeywords sources) as [ngs|]; [|done].
    apply find_some in Hng as [Hin _]. by apply list_elem_of_In.
  - intros Hreturned. right. revert Hreturned. unfold scoreBeforeFreshness.
    destruct (scoreContext _ _ _) as [st|e] eqn:Hctx; [|done].
    cbn [andThen]. intros [= Hret].
    assert (Hr : "Subscribed Channel" ∈ (scoreFreshness (annotate sub v) sources st).2).
    { apply scoreFreshness_keeps. eapply scoreContext_keeps; [exact Hctx|].
      apply scoreGenres_keeps. unfold scoreSubscribed.
      replace (existsb _ (subscribedChannels sources)) with true.
      - cbn [snd]. apply elem_of_app. right. constructor.
      - symmetry. apply existsb_exists. exists sub.
        split; [by apply list_elem_of_In|]. cbn [annotate channelId].
        by rewrite String.eqb_refl. }
    by rewrite Hret in Hr.
Qed.
End ScoreRange.

(** ** The strict-filter pipeline as a whole *)

Section StrictPipelineWhole.
Import StrictFilter.
Context `{CaseFolding}.

Lemma rank_returns sources candidates out :
  rank sources candidates = Returns out →
  ∃ scoredVideos, scoreAll sources candidates = Returns scoredVideos
                  ∧ out = selectTop scoredVideos.
Proof.
  unfold rank. destruct (scoreAll sources candidates) as [scoredVideos|e]; [|done].
  cbn [andThen]. intros [= <-]. eauto.
Qed.

Lemma selectTop_submseteq scoredVideos : selectTop scoredVideos ⊆+ scoredVideos.
Proof.
  unfold selectTop. etrans; [apply submseteq_take|].
  rewrite sortByScore_Permutation. apply sublist_submseteq, sublist_filter.
Qed.

Lemma scoreAll_video_of sources candidates scoredVideos :
  scoreAll sources candidates = Returns scoredVideos →
  map video_of scoredVideos = candidates.
Proof.
  intros Hall%scoreAll_Forall2.
  induction Hall as [|c v cs vs [Hv _] _ IH]; [done|]. cbn [map]. by rewrite Hv, IH.
Qed.

Lemma scoreAll_elem_of sources candidates scoredVideos v :
  scoreAll sources candidates = Returns scoredVideos → v ∈ scoredVideos →
  video_of v ∈ candidates
  ∧ calculateScore (video_of v) sources = Returns (score v, debugReason v).
Proof.
  intros Hall%scoreAll_Forall2 Hv.
  induction Hall as [|c w cs ws [Hw Hc] _ IH]; [by apply elem_of_nil in Hv|].
  apply elem_of_cons in Hv as [->|Hv].
  - rewrite Hw. split; [by left | done].
  - destruct (IH Hv) as [Hin Hcalc]. split; [by right | done].
Qed.



Lemma submseteq_NoDup {A : Type} (l k : list A) : l ⊆+ k → NoDup k → NoDup l.
Proof.
  intros (k' & Hk)%submseteq_Permutation Hnd. rewrite Hk in Hnd.
  by apply NoDup_app in Hnd as [? _].
Qed.

Lemma collect_app {A : Type} (r1 r2 : list (promise (list A))) :
  collect (r1 ++ r2) = collect r1 ++ collect r2.
Proof. unfold collect. by rewrite omap_app, concat_app. Qed.

Lemma collect_searchRequests api uniqueQueries :
  collect (searchRequests api uniqueQueries) = concat (map (searchAnswer api) uniqueQueries).
Proof.
  unfold collect, searchRequests.
  induction uniqueQueries as [|q qs IH]; [done|].
  cbn [map omap list_omap concat]. unfold searchAnswer at 1.
  destruct (searchVideos api q None); cbn [then_ catch_ concat]; by rewrite <- IH.
Qed.

Lemma collect_channelRequests api subs :
  collect (channelRequests api subs) = concat (map (feedAnswer api) subs).
Proof.
  unfold collect, channelRequests.
  induction subs as [|sub subs IH]; [done|].
  cbn [map omap list_omap concat]. unfold feedAnswer at 1.
  destruct (getChannelVideos api (ch_id sub)); cbn [then_ catch_ concat]; by rewrite <- IH.
Qed.

(** The pipeline works on the best-effort union of the answers: the
    deduplicated concatenation of what each search and each channel
    feed answered, in the order of the requests, a failed request
    counting as an empty answer. *)
Lemma getDeeplyAnalyzedRecommendations_result api sources uniqueQueries g :
  (getDeeplyAnalyzedRecommendations api sources uniqueQueries g).1
  = settle (rank sources (deduplicate
      (concat (map (searchAnswer api) uniqueQueries)
       ++ concat (map (feedAnswer api) (chooseSubs sources g).1)))).
Proof.
  rewrite strict_pipeline_settles.
  by rewrite collect_app, collect_searchRequests, collect_channelRequests.
Qed.

(** X13: the strict-filter pipeline returns a list for every source none
    of whose context preferences is an inherited name, whatever the
    remote calls do.  A list that it returns has at most 50 entries
    with pairwise-distinct ids, in descending order of score; every
    entry is a fetched video without NG match, with the score and the
    reasons that [calculateScore] returned for it, and a score above
    -100.  A rejection is the error of the scorer. *)
Theorem getDeeplyAnalyzedRecommendations_output_invariants (api : Api Video)
    (sources : RecommendationSource) (uniqueQueries : list string) (g : nat → unit_draw) :
  let result := (getDeeplyAnalyzedRecommendations api sources uniqueQueries g).1 in
  (contextSafe sources → ∃ out, result = Fulfilled out)
  ∧ (∀ e, result = Rejected e → e = notAFunction ∧ ¬ contextSafe sources)
  ∧ ∀ out, result = Fulfilled out →
      (length out ≤ 50)%nat
      ∧ NoDup (map scoredId out)
      ∧ descending out
      ∧ ∀ v, v ∈ out →
          video_of v ∈ concat (map (searchAnswer api) uniqueQueries)
                       ++ concat (map (feedAnswer api) (chooseSubs sources g).1)
          ∧ ngMatch (video_of v) sources = None
          ∧ calculateScore (video_of v) sources = Returns (score v, debugReason v)
          ∧ -100 < score v.
Proof.
  intros result. split; [apply strict_pipeline_fulfils_when_safe|].
  unfold result. rewrite getDeeplyAnalyzedRecommendations_result.
  set (raw := concat _ ++ concat _). split.
  - intros e Hrej. unfold rank in Hrej.
    destruct (scoreAll sources (deduplicate raw)) as [scoredVideos|e'] eqn:Hall; [done|].
    injection Hrej as ->.
    apply scoreAll_error in Hall as (video & _ & Hthrow).
    apply calculateScore_error in Hthrow as (-> & Hunsafe & _). done.
  - intros out Hout.
    destruct (rank sources (deduplicate raw)) as [out'|e] eqn:Hrank; [|done].
    injection Hout as ->.
    apply rank_returns in Hrank as (scoredVideos & Hall & ->).
    destruct (selectTop_spec scoredVideos) as (survivors & Htop & _ & Hmem & _ & _ & Hdesc & Hlen).
    pose proof (selectTop_submseteq scoredVideos) as Hsub.
    split; [by rewrite Htop|]. split; [|split; [by rewrite Htop|]].
    + apply (submseteq_NoDup _ (map scoredId scoredVideos)); [by apply fmap_submseteq|].
      change scoredId with (id ∘ video_of). rewrite list_fmap_compose.
      change (video_of <$> scoredVideos) with (map video_of scoredVideos).
      rewrite (scoreAll_video_of _ _ _ Hall).
      rewrite deduplicate_firstOccurrences. apply firstOccurrences_NoDup.
    + intros v Hv.
      assert (Hvs : v ∈ survivors).
      { rewrite Htop in Hv. apply elem_of_take in Hv as (i & Hi & _).
        apply list_elem_of_lookup. eauto. }
      apply Hmem in Hvs as [Hvs Hscore].
      destruct (scoreAll_elem_of _ _ _ v Hall Hvs) as [Hin Hcalc].
      split; [|split; [|done]].
      * rewrite deduplicate_firstOccurrences in Hin.
        eapply elem_of_sublist; [exact Hin | apply firstOccurrences_sublist].
      * destruct (ngMatch (video_of v) sources) as [ng|] eqn:Hng; [|done]. exfalso.
        revert Hcalc. unfold calculateScore. rewrite Hng. intros [= Hs _]. lia.
Qed.
End StrictPipelineWhole.

(** ** Query generation *)

Section QueryGeneration.
Import QueryPlan.

Lemma setAdd_distinct queries q : NoDup queries → NoDup (setAdd queries q).
Proof.
  intros Hnd. unfold setAdd. destruct (array_includes queries q) eqn:Hin; [done|].
  apply NoDup_app. split; [done|]. split; [|apply NoDup_singleton].
  intros x Hx ->%list_elem_of_singleton.
  apply array_includes_elem_of in Hx. congruence.
Qed.

Lemma setAdd_nonempty queries q : setAdd queries q ≠ [].
Proof.
  unfold setAdd. destruct (array_includes queries q) eqn:Hin.
  - intros ->. done.
  - by destruct queries.
Qed.

Lemma foldl_setAdd_distinct {A : Type} (f : A → string) (l : list A) : ∀ queries,
  NoDup queries → NoDup (foldl (λ qs x, setAdd qs (f x)) queries l).
Proof.
  induction l as [|x l IH]; intros queries Hnd; simpl; [done|].
  by apply IH, setAdd_distinct.
Qed.

Lemma rand_foldl_invariant {A B : Type} (P : B → Prop) (f : B → A → Rand B) (l : list A) :
  (∀ b x g, P b → P (f b x g).1) →
  ∀ b g, P b → P (rand_foldl f b l g).1.
Proof.
  intros Hf. induction l as [|x l IH]; intros b g Hb; simpl; [done|].
  unfold mbind, rand_bind. specialize (Hf b x g Hb).
  destruct (f b x g) as [b' g1]. by apply IH.
Qed.

Variable extractKeywords : string → list string.

Lemma addFromHistory_distinct contextSuffix queries v g :
  NoDup queries → NoDup (addFromHistory extractKeywords contextSuffix queries v g).1.
Proof.
  intros Hnd. unfold addFromHistory.
  destruct (extractKeywords (title v)) as [|k0 [|k1 rest]]; cbn [fst mret rand_ret].
  - done.
  - by apply setAdd_distinct.
  - unfold mbind, rand_bind, mret, rand_ret.
    destruct (randomAbove (1 # 2) g) as [[] g1]; cbn [fst];
      repeat apply setAdd_distinct; done.
Qed.

Lemma queriesOf_distinct_nonempty sources g :
  NoDup (queriesOf extractKeywords sources g).1
  ∧ (queriesOf extractKeywords sources g).1 ≠ [].
Proof.
  unfold queriesOf, mbind, rand_bind, mret, rand_ret.
  destruct (contextSuffixOf sources g) as [contextSuffix g1].
  set (q1 := foldl _ [] (StrictFilter.preferredGenres sources)).
  set (q2 := foldl _ q1 (StrictFilter.preferredChannels sources)).
  assert (H2 : NoDup q2).
  { unfold q2, q1.
    apply (foldl_setAdd_distinct (λ c, c +:+ contextSuffix)).
    apply (foldl_setAdd_distinct (λ g, g +:+ contextSuffix +:+ freshnessSuffixOf sources)).
    constructor. }
  pose proof (rand_foldl_invariant (λ qs, NoDup qs)
                (addFromHistory extractKeywords contextSuffix)
                (take 15 (StrictFilter.watchHistory sources))
                (λ b x g0 Hb, addFromHistory_distinct contextSuffix b x g0 Hb)
                q2 g1 H2) as H3.
  destruct (rand_foldl _ q2 _ g1) as [q3 g2]. cbn [fst] in H3.
  assert (H4 : NoDup (addFromSubscriptions sources contextSuffix q3 g2).1).
  { unfold addFromSubscriptions. destruct (negb _); [|done].
    unfold mbind, rand_bind, mret, rand_ret.
    destruct (randomBelow _ g2) as [k g3]. cbn [fst].
    destruct (_ !! k); [by apply setAdd_distinct | done]. }
  destruct (addFromSubscriptions sources contextSuffix q3 g2) as [q4 g3]. cbn [fst] in *.
  unfold addFallback. destruct (_ || _) eqn:Hcond.
  - cbn [foldl]. split; [by repeat apply setAdd_distinct | apply setAdd_nonempty].
  - split; [done|]. apply orb_false_elim in Hcond as [Hlen _].
    apply Nat.eqb_neq in Hlen. by destruct q4.
Qed.

(** X15: whatever the keyword extractor and the draws, query generation
    yields between one and six queries, no two of them equal; with the
    two channel feeds at most, one call issues at most eight requests. *)
Theorem uniqueQueries_bounded_distinct (sources : StrictFilter.RecommendationSource)
    (g : nat → unit_draw) :
  let queries := (uniqueQueries extractKeywords sources g).1 in
  (1 ≤ length queries ≤ 6)%nat
  ∧ NoDup queries
  ∧ ∀ (api : Api Video) g',
      (length (StrictFilter.searchRequests api queries
               ++ StrictFilter.channelRequests api (StrictFilter.chooseSubs sources g').1)
       ≤ 8)%nat.
Proof.
  intros queries.
  destruct (queriesOf_distinct_nonempty sources g) as [Hnd Hne].
  assert (Hq : queries = take 6 (queriesOf extractKeywords sources g).1).
  { unfold queries, uniqueQueries, mbind, rand_bind, mret, rand_ret.
    by destruct (queriesOf extractKeywords sources g). }
  assert (Hlen : (1 ≤ length queries ≤ 6)%nat).
  { rewrite Hq, length_take.
    destruct (queriesOf extractKeywords sources g).1; [done | cbn [length]; lia]. }
  split; [done|]. split.
  - rewrite Hq. eapply sublist_NoDup; [exact Hnd | apply sublist_take].
  - intros api g'. rewrite length_app.
    unfold StrictFilter.searchRequests, StrictFilter.channelRequests.
    rewrite !length_map.
    assert ((length (StrictFilter.chooseSubs sources g').1 ≤ 2)%nat); [|lia].
    unfold StrictFilter.chooseSubs. destruct (_ && _); [|cbn; lia].
    unfold mbind, rand_bind, mret, rand_ret.
    destruct (shuffleArray _ g') as [shuffled g1]. cbn [fst].
    rewrite length_take. lia.
Qed.
End QueryGeneration.

(** ** The shuffling pipeline as a whole *)

Section ShufflingWhole.
Import Shuffling.
Context `{CaseFolding}.

(** X16: the two pipelines agree on durations: for a non-empty set of
    preferred durations, the filter of the shuffling pipeline rejects a
    video exactly when the duration rule of the scorer gives it the
    penalty of -500. *)
Theorem durationAccepted_iff_no_penalty (source : StrictFilter.RecommendationSource)
    (ds : list string) (video : Video) :
  StrictFilter.preferredDurations source = Some ds → ds ≠ [] →
  (durationAccepted ds video = false ↔ durationPoints video source = -500).
Proof.
  intros Hds Hne. unfold durationAccepted, durationPoints. rewrite Hds.
  destruct ds as [|d ds']; [done|]. set (ds := d :: ds') in *.
  rewrite parseDurationToSeconds_unguarded_eq.
  pose proof (parseDurationToSeconds_nonneg (isoDuration video)) as Hsec.
  set (sec := parseDurationToSeconds (isoDuration video)) in *.
  unfold StrictFilter.durationMatch.
  destruct (decide (sec = 0)) as [Hz|Hnz].
  - rewrite Hz. cbn [Z.ltb Z.leb Z.eqb Z.compare].
    rewrite !andb_false_r, !orb_true_r. cbn [orb]. done.
  - replace (0 <? sec) with true by (symmetry; apply Z.ltb_lt; lia).
    replace (sec =? 0) with false by (symmetry; apply Z.eqb_neq; lia).
    rewrite andb_true_r, orb_false_r.
    destruct (_ || _ || _); split; intros Hx; done.
Qed.

Lemma rand_filter_all {A : Type} (f : A → Rand bool) (l : list A) :
  (∀ x g, x ∈ l → f x g = (true, g)) → ∀ g, rand_filter f l g = (l, g).
Proof.
  induction l as [|x l IH]; intros Hf g; [done|]. cbn [rand_filter].
  unfold mbind, rand_bind, mret, rand_ret.
  rewrite Hf by (by left). rewrite IH; [done|].
  intros y g' Hy. apply Hf. by right.
Qed.

Lemma rand_filter_keeps {A : Type} (f : A → Rand bool) (l : list A) (x : A) :
  (∀ g, (f x g).1 = true) → x ∈ l → ∀ g, x ∈ (rand_filter f l g).1.
Proof.
  intros Hx. induction l as [|y l IH]; intros Hin g; [by apply elem_of_nil in Hin|].
  cbn [rand_filter]. unfold mbind, rand_bind, mret, rand_ret.
  destruct (f y g) as [keep g1] eqn:Hf.
  specialize (IH).
  destruct (rand_filter f l g1) as [rest g2] eqn:Hrest. cbn [fst].
  apply elem_of_cons in Hin as [->|Hin].
  - specialize (Hx g). rewrite Hf in Hx. cbn [fst] in Hx. rewrite Hx. by left.
  - specialize (IH Hin g1). rewrite Hrest in IH. cbn [fst] in IH.
    destruct keep; [by right | done].
Qed.

(** X17: the thinning of short videos returns a sublist of its input that
    holds every video longer than 60 seconds; it returns the input as it
    is when at most twenty videos are left or when ['short'] is a
    preferred duration. *)
Theorem thinShorts_keeps (sources : RecommendationSource) (filteredVideos : list Video)
    (g : nat → unit_draw) :
  sublist (thinShorts sources filteredVideos g).1 filteredVideos
  ∧ (∀ v, v ∈ filteredVideos → 60 < parseDurationToSeconds_unguarded (isoDuration v) →
          v ∈ (thinShorts sources filteredVideos g).1)
  ∧ ((length filteredVideos ≤ 20)%nat
     ∨ array_includes (default [] (preferredDurations sources)) "short" = true →
     (thinShorts sources filteredVideos g).1 = filteredVideos).
Proof.
  unfold thinShorts.
  destruct (20 <? length filteredVideos)%nat eqn:Hlen.
  - split; [apply rand_filter_sublist|]. split.
    + intros v Hv Hlong. apply rand_filter_keeps; [|done].
      intros g'. destruct (array_includes _ "short"); [done|].
      by replace (60 <? _) with true by (symmetry; by apply Z.ltb_lt).
    + intros [Hle|Hshort]; [apply Nat.ltb_lt in Hlen; lia|].
      rewrite rand_filter_all; [done|]. intros x g' _. by rewrite Hshort.
  - split; [done|]. split; [done|]. done.
Qed.

(** X18: the channel feeds of the shuffling pipeline: as many requests as
    [targetSubCount] allows and subscriptions exist, ten at most and one
    at most in the ['discovery'] mode; every request is fulfilled, with at
    most ten videos, each carrying the identity and the name of the
    subscribed channel it was fetched for. *)
Theorem subRequests_count_and_shape (api : Api Video) (sources : RecommendationSource)
    (g : nat → unit_draw) :
  length (subRequests api sources g).1
  = (targetSubCount sources `min` length (subscribedChannels sources))%nat
  ∧ (length (subRequests api sources g).1 ≤ 10)%nat
  ∧ (default "balanced" (discoveryMode sources) = "discovery" →
       (length (subRequests api sources g).1 ≤ 1)%nat)
  ∧ Forall (λ p, ∃ l sub,
              p = Fulfilled l ∧ (length l ≤ 10)%nat ∧ sub ∈ subscribedChannels sources
              ∧ Forall (λ v, channelId v = ch_id sub ∧ channelName v = ch_name sub) l)
           (subRequests api sources g).1.
Proof.
  unfold subRequests, mbind, rand_bind, mret, rand_ret.
  pose proof (shuffleArray_Permutation (subscribedChannels sources) g) as Hperm.
  destruct (shuffleArray (subscribedChannels sources) g) as [shuffledSubs g1].
  cbn [fst] in *.
  assert (Hlen : length shuffledSubs = length (subscribedChannels sources))
    by (by rewrite Hperm).
  assert (Hcount : (targetSubCount sources ≤ 10)%nat).
  { unfold targetSubCount. destruct (String.eqb _ "subscribed"); [lia|].
    destruct (String.eqb _ "discovery"); lia. }
  assert (Hdisc : default "balanced" (discoveryMode sources) = "discovery" →
                  targetSubCount sources = 1%nat).
  { intros Hmode. unfold targetSubCount. by rewrite Hmode. }
  rewrite length_map, length_take, Hlen.
  split; [done|]. split; [lia|]. split.
  - intros Hmode. rewrite (Hdisc Hmode). lia.
  - apply Forall_forall. intros p Hp.
    apply list_elem_of_fmap in Hp as (sub & -> & Hsub).
    assert (Hin : sub ∈ subscribedChannels sources).
    { pose proof (elem_of_sublist _ _ _ Hsub
                    (sublist_take shuffledSubs (targetSubCount sources))) as Hs.
      by rewrite Hperm in Hs. }
    destruct (getChannelVideos api (ch_id sub)) as [res|e]; cbn [then_ catch_].
    + exists (map (annotate sub) (take 10 (videos res))), sub.
      split; [done|]. split; [rewrite length_map, length_take; lia|].
      split; [done|]. apply Forall_forall. intros v Hv.
      by apply list_elem_of_fmap in Hv as (w & -> & _).
    + exists [], sub. split; [done|]. split; [cbn [length]; lia|].
      split; [done | constructor].
Qed.

Lemma finish_submseteq sources filteredVideos g :
  (finish sources filteredVideos g).1 ⊆+ filteredVideos.
Proof.
  unfold finish, mbind, rand_bind, mret, rand_ret.
  assert (Hthin : sublist (thinShorts sources filteredVideos g).1 filteredVideos).
  { unfold thinShorts. destruct (20 <? _)%nat; [apply rand_filter_sublist | done]. }
  destruct (thinShorts sources filteredVideos g) as [thinned g1]. cbn [fst] in Hthin.
  pose proof (shuffleArray_Permutation thinned g1) as Hperm.
  destruct (shuffleArray thinned g1) as [shuffled g2]. cbn [fst] in *.
  etrans; [apply submseteq_take|]. rewrite Hperm. by apply sublist_submseteq.
Qed.

(** X19: the list the shuffling pipeline returns has at most 100 entries
    with pairwise-distinct ids; every entry is one of the combined
    videos, and none is rejected by the NG filter or the duration
    filter. *)
Theorem shuffling_output_invariants (api : Api Video) (sources : RecommendationSource)
    (uniqueQueries : list string) (g : nat → unit_draw) :
  ∃ out,
    (getDeeplyAnalyzedRecommendations api sources uniqueQueries g).1 = Fulfilled out
    ∧ (length out ≤ 100)%nat
    ∧ NoDup (map id out)
    ∧ ∀ v, v ∈ out →
        v ∈ combinedVideosOf api sources uniqueQueries g
        ∧ rejected sources v = false.
Proof.
  destruct (getDeeplyAnalyzedRecommendations_output api sources uniqueQueries g) as [g' Hout].
  eexists. split; [exact Hout|].
  set (combined := combinedVideosOf api sources uniqueQueries g).
  pose proof (finish_submseteq sources (filterCandidates sources combined) g') as Hsub.
  split; [|split].
  - unfold finish, mbind, rand_bind, mret, rand_ret.
    destruct (thinShorts _ _ g') as [thinned g1]. destruct (shuffleArray thinned g1).
    cbn [fst]. rewrite length_take. lia.
  - apply (submseteq_NoDup _ (map id (filterCandidates sources combined))).
    + by apply fmap_submseteq.
    + rewrite filterCandidates_spec.
      eapply sublist_NoDup; [apply (firstOccurrences_NoDup id combined ∅)|].
      apply fmap_sublist, sublist_filter.
  - intros v Hv. apply (finish_subseteq sources _ g') in Hv.
    rewrite filterCandidates_spec in Hv.
    apply list_elem_of_filter in Hv as [Hok Hv]. split; [|done].
    eapply elem_of_sublist; [exact Hv | apply firstOccurrences_sublist].
Qed.
End ShufflingWhole.

(** ** Priorities and repetition *)

Lemma firstOccurrences_app {A : Type} (key : A → string) (l1 l2 : list A) : ∀ seen,
  firstOccurrences key seen (l1 ++ l2)
  = firstOccurrences key seen l1
    ++ firstOccurrences key (list_to_set (map key l1) ∪ seen) l2.
Proof.
  induction l1 as [|x l1 IH]; intros seen; cbn [app firstOccurrences map].
  - f_equal. set_solver.
  - destruct (decide (key x ∈ seen)) as [Hin|Hout]; rewrite IH; cbn [app].
    + f_equal. f_equal. rewrite list_to_set_cons. set_solver.
    + f_equal. f_equal. f_equal. rewrite list_to_set_cons. set_solver.
Qed.

(** X20: the preferred genres come before the keywords of the profile:
    the top keywords are at most twelve distinct strings, they start with
    the distinct preferred genres (the first twelve of them), and each is
    a preferred genre or a keyword of the profile. *)
Theorem topKeywords_genres_first (UserProfile : Type)
    (weightedKeywords : UserProfile → list string)
    (sources : DualPool.RecommendationSource) (userProfile : UserProfile) :
  let topKeywords := DualPool.topKeywordsOf UserProfile weightedKeywords sources userProfile in
  NoDup topKeywords
  ∧ (length topKeywords ≤ 12)%nat
  ∧ take 12 (DualPool.uniqueStrings (DualPool.preferredGenres sources)) `prefix_of` topKeywords
  ∧ ∀ k, k ∈ topKeywords →
         k ∈ DualPool.preferredGenres sources ∨ k ∈ weightedKeywords userProfile.
Proof.
  intros topKeywords. unfold topKeywords, DualPool.topKeywordsOf, DualPool.uniqueStrings.
  rewrite !foldl_keep_unseen. cbn [snd app].
  split; [|split; [|split]].
  - eapply sublist_NoDup; [|apply sublist_take].
    pose proof (firstOccurrences_NoDup (λ s : string, s)
                  (DualPool.preferredGenres sources ++ weightedKeywords userProfile) ∅) as Hnd.
    by rewrite map_id in Hnd.
  - rewrite length_take. lia.
  - rewrite firstOccurrences_app, take_app. by eexists.
  - intros k Hk. apply elem_of_app.
    eapply elem_of_sublist; [exact Hk|].
    etrans; [apply sublist_take | apply firstOccurrences_sublist].
Qed.

(** X21: aggregating twice changes nothing: the deduplication loop leaves
    an already deduplicated list as it is. *)
Theorem deduplicate_idempotent (rawCandidates : list Video) :
  StrictFilter.deduplicate (StrictFilter.deduplicate rawCandidates)
  = StrictFilter.deduplicate rawCandidates.
Proof.
  unfold StrictFilter.deduplicate. rewrite !foldl_keep_unseen. cbn [snd app].
  apply firstOccurrences_distinct; [apply firstOccurrences_NoDup | set_solver].
Qed.

(** * Concrete instances of the further properties *)

Example chunk_seven_by_three :
  DualPool.chunkArray ["a"; "b"; "c"; "d"; "e"; "f"; "g"] 3
  = [["a"; "b"; "c"]; ["d"; "e"; "f"]; ["g"]].
Proof. reflexivity. Qed.

Lemma chunkArray_partition_witness :
  (0 < 3)%nat
  ∧ concat (DualPool.chunkArray ["a"; "b"; "c"; "d"; "e"; "f"; "g"] 3)
    = ["a"; "b"; "c"; "d"; "e"; "f"; "g"].
Proof.
  assert (Hsize : (0 < 3)%nat) by lia.
  split; [exact Hsize|].
  exact (proj1 (chunkArray_partition ["a"; "b"; "c"; "d"; "e"; "f"; "g"] 3 Hsize)).
Defined.

Lemma mixFeeds_single_pool_witness :
  NoDup (map DualPool.vid poolA)
  ∧ DualPool.mixFeeds [] poolA (DualPool.belowRatio (65 # 100)) = poolA.
Proof.
  assert (Hnd : NoDup (map DualPool.vid poolA)).
  { apply (bool_decide_unpack (NoDup (map DualPool.vid poolA))). vm_compute. exact I. }
  split; [exact Hnd|].
  exact (proj1 (proj2 (proj2 (mixFeeds_single_pool poolA (DualPool.belowRatio (65 # 100))))
                  Hnd)).
Defined.

Lemma mixFeeds_extreme_ratios_witness :
  (1 <= 1)%Q
  ∧ DualPool.mixFeeds poolA poolB (DualPool.belowRatio 1)
    = firstOccurrences DualPool.vid ∅ (poolA ++ poolB).
Proof.
  assert (Hr : (1 <= 1)%Q) by apply Qle_refl.
  split; [exact Hr|].
  exact (proj1 (mixFeeds_extreme_ratios poolA poolB 1) Hr).
Defined.

Lemma getXraiRecommendations_distinct_capped_witness :
  (DualPool.getXraiRecommendations unit (λ _ _ _, tt) (λ _, []) (λ l _ _, l)
     feedUp newUserSecondPage zeroDraws).1 = Fulfilled poolA
  ∧ NoDup (map DualPool.vid poolA) ∧ (length poolA ≤ 150)%nat.
Proof.
  assert (Hrun : (DualPool.getXraiRecommendations unit (λ _ _ _, tt) (λ _, []) (λ l _ _, l)
                    feedUp newUserSecondPage zeroDraws).1 = Fulfilled poolA)
    by (vm_compute; reflexivity).
  split; [exact Hrun|].
  exact (getXraiRecommendations_distinct_capped unit (λ _ _ _, tt) (λ _, []) (λ l _ _, l)
           feedUp newUserSecondPage zeroDraws poolA Hrun).
Defined.

Lemma calculateScore_range_witness :
  StrictFilter.calculateScore (H := asciiFolding) easyCooking mediumAndNew
  = Returns (220, ["Duration Match (Priority)"; "Fresh"])
  ∧ StrictFilter.ngMatch (H := asciiFolding) easyCooking mediumAndNew = None
  ∧ -500 <= 220 <= 480 + 40 * 0.
Proof.
  split; [reflexivity|]. split; [reflexivity|].
  exact (proj1 (proj2 (proj2 (calculateScore_range (H := asciiFolding) easyCooking mediumAndNew)
                         220 ["Duration Match (Priority)"; "Fresh"] eq_refl))
           eq_refl).
Defined.


Lemma getDeeplyAnalyzedRecommendations_output_invariants_witness :
  contextSafe deepSubscriber
  ∧ ∃ out,
      (StrictFilter.getDeeplyAnalyzedRecommendations (H := asciiFolding) cookingApi
         deepSubscriber ["cooking "] zeroDraws).1 = Fulfilled out
      ∧ (length out ≤ 50)%nat
      ∧ NoDup (map scoredId out)
      ∧ descending out.
Proof.
  assert (Hsafe : contextSafe deepSubscriber).
  { intros p Hp Hinh. unfold contextPreferences in Hp. cbn in Hp.
    repeat (apply elem_of_cons in Hp as [Hp|Hp];
            [first [discriminate Hp | injection Hp as ->] |]).
    - vm_compute in Hinh.
      repeat (apply elem_of_cons in Hinh as [Hinh|Hinh]; [discriminate Hinh|]).
      by apply elem_of_nil in Hinh.
    - by apply elem_of_nil in Hp. }
  split; [exact Hsafe|].
  pose proof (getDeeplyAnalyzedRecommendations_output_invariants (H := asciiFolding)
                cookingApi deepSubscriber ["cooking "] zeroDraws) as Hthm.
  cbv zeta in Hthm. destruct Hthm as (Hfulfils & _ & Hinv).
  destruct (Hfulfils Hsafe) as [out Hout].
  destruct (Hinv out Hout) as (Hlen & Hnd & Hdesc & _).
  exists out. split; [exact Hout|]. split; [exact Hlen|]. split; [exact Hnd | exact Hdesc].
Defined.

Example strict_pipeline_on_cooking :
  map scoredId
    (match (StrictFilter.getDeeplyAnalyzedRecommendations (H := asciiFolding) cookingApi
              subscriber ["cooking "] zeroDraws).1 with
     | Fulfilled out => out
     | Rejected _ => []
     end)
  = ["v2"].
Proof. vm_compute. reflexivity. Qed.

(** With a depth preference that names an inherited property, the
    pipeline rejects as soon as one candidate passes the NG filter. *)
Example constructor_preference_rejects_pipeline :
  (StrictFilter.getDeeplyAnalyzedRecommendations (H := asciiFolding) cookingApi
     constructorFan ["cooking "] zeroDraws).1
  = Rejected StrictFilter.notAFunction.
Proof. vm_compute. reflexivity. Qed.

Lemma strict_pipeline_rejects_witness :
  Some "constructor" ∈ contextPreferences constructorFan
  ∧ "constructor" ∈ StrictFilter.objectPrototypeKeys
  ∧ StrictFilter.ngMatch (H := asciiFolding) easyCooking constructorFan = None
  ∧ (StrictFilter.getDeeplyAnalyzedRecommendations (H := asciiFolding) cookingApi
       constructorFan ["cooking "] zeroDraws).1
    = Rejected StrictFilter.notAFunction.
Proof.
  assert (Hp : Some "constructor" ∈ contextPreferences constructorFan) by constructor.
  assert (Hinh : "constructor" ∈ StrictFilter.objectPrototypeKeys) by constructor.
  assert (Hvideo : easyCooking
            ∈ StrictFilter.deduplicate
                (collect (StrictFilter.searchRequests cookingApi ["cooking "]
                          ++ StrictFilter.channelRequests cookingApi
                               (StrictFilter.chooseSubs constructorFan zeroDraws).1))).
  { vm_compute. constructor. constructor. }
  split; [exact Hp|]. split; [exact Hinh|]. split; [reflexivity|].
  exact (strict_pipeline_rejects (H := asciiFolding) cookingApi constructorFan ["cooking "]
           zeroDraws "constructor" easyCooking Hp Hinh Hvideo eq_refl).
Defined.

Lemma freshness_rule_witness :
  StrictFilter.ngMatch (H := asciiFolding) easyCooking mediumAndNew = None
  ∧ StrictFilter.preferredFreshness mediumAndNew = Some "new"
  ∧ includes (uploadedAt easyCooking) "時間前" = true
  ∧ StrictFilter.calculateScore (H := asciiFolding) easyCooking
      (withFreshness None mediumAndNew) = Returns (200, ["Duration Match (Priority)"])
  ∧ StrictFilter.calculateScore (H := asciiFolding) easyCooking mediumAndNew
    = Returns (200 + 20, ["Duration Match (Priority)"] ++ ["Fresh"]).
Proof.
  split; [reflexivity|]. split; [reflexivity|]. split; [reflexivity|]. split; [reflexivity|].
  exact (proj1 (freshness_rule (H := asciiFolding) easyCooking mediumAndNew eq_refl)
           eq_refl eq_refl 200 ["Duration Match (Priority)"] eq_refl).
Defined.

Lemma feed_video_earns_subscription_witness :
  kitchenChannel ∈ StrictFilter.subscribedChannels subscriber
  ∧ StrictFilter.calculateScore (H := asciiFolding)
      (annotate kitchenChannel easyCooking) subscriber
    = Returns (70, ["Subscribed Channel"; "Genre Match: cooking"])
  ∧ "Subscribed Channel" ∈ ["Subscribed Channel"; "Genre Match: cooking"].
Proof.
  assert (Hsub : kitchenChannel ∈ StrictFilter.subscribedChannels subscriber)
    by constructor.
  split; [exact Hsub|]. split; [reflexivity|].
  destruct (feed_video_earns_subscription (H := asciiFolding) subscriber kitchenChannel
              easyCooking 70 ["Subscribed Channel"; "Genre Match: cooking"] Hsub eq_refl)
    as [(ng & _ & Hs & _)|Hin]; [discriminate Hs | exact Hin].
Defined.

Lemma durationAccepted_iff_no_penalty_witness :
  StrictFilter.preferredDurations mediumAndNew = Some ["medium"]
  ∧ durationPoints fiveMinutesAgo mediumAndNew = -500
  ∧ Shuffling.durationAccepted ["medium"] fiveMinutesAgo = false.
Proof.
  assert (Hne : ["medium"] ≠ []) by discriminate.
  split; [reflexivity|]. split; [reflexivity|].
  exact (proj2 (durationAccepted_iff_no_penalty mediumAndNew ["medium"] fiveMinutesAgo
                  eq_refl Hne) eq_refl).
Defined.

Lemma thinShorts_keeps_witness :
  (length [firstCopy; laterCopy] ≤ 20)%nat
  ∧ (Shuffling.thinShorts noViolence [firstCopy; laterCopy] zeroDraws).1
    = [firstCopy; laterCopy].
Proof.
  assert (Hlen : (length [firstCopy; laterCopy] ≤ 20)%nat) by (cbn; lia).
  split; [exact Hlen|].
  exact (proj2 (proj2 (thinShorts_keeps noViolence [firstCopy; laterCopy] zeroDraws))
           (or_introl Hlen)).
Defined.

Lemma subRequests_count_and_shape_witness :
  length (Shuffling.subRequests cookingApi noViolence zeroDraws).1 = 0%nat.
Proof.
  exact (proj1 (subRequests_count_and_shape cookingApi noViolence zeroDraws)).
Defined.

Lemma shuffling_output_invariants_witness :
  ∃ out,
    (Shuffling.getDeeplyAnalyzedRecommendations (H := asciiFolding) cookingApi noViolence
       ["cooking"] zeroDraws).1 = Fulfilled out
    ∧ (length out ≤ 100)%nat
    ∧ NoDup (map id out).
Proof.
  destruct (shuffling_output_invariants (H := asciiFolding) cookingApi noViolence
              ["cooking"] zeroDraws) as (out & Hrun & Hlen & Hnd & _).
  exists out. split; [exact Hrun|]. split; [exact Hlen | exact Hnd].
Defined.

Lemma topKeywords_genres_first_witness :
  "music" ∈ DualPool.topKeywordsOf unit (λ _, ["music"; "cats"]) genreFan tt
  ∧ ("music" ∈ DualPool.preferredGenres genreFan ∨ "music" ∈ ["music"; "cats"]).
Proof.
  assert (Hk : "music" ∈ DualPool.topKeywordsOf unit (λ _, ["music"; "cats"]) genreFan tt).
  { vm_compute. do 2 constructor. constructor. }
  split; [exact Hk|].
  exact (proj2 (proj2 (proj2 (topKeywords_genres_first unit (λ _, ["music"; "cats"])
                                genreFan tt))) "music" Hk).
Defined.

Example top_keywords_of_genre_fan :
  DualPool.topKeywordsOf unit (λ _, ["music"; "cats"]) genreFan tt
  = ["cooking"; "cats"; "music"].
Proof. vm_compute. reflexivity. Qed.
